(** * SinglyLinkedList.hpp: a shallow embedding and its verification

    The class template [SinglyLinkedList<T>] keeps a chain of heap nodes
    ([std::shared_ptr<Node> head], every node's [next]), a raw pointer
    [tail] to the last node and a counter [list_size].  The embedding
    keeps that shape: nodes live in a heap indexed by addresses, pointers
    are optional addresses ([None] is [nullptr]), and every member
    function is a state transformer on the heap and on the fields of
    [*this], returning what the call did (returned, threw, ran into
    undefined behaviour, looped for ever) together with the state it
    left behind.

    Elements are plain values: copying or moving a [T] neither throws
    nor touches the list.  Running out of memory ([std::bad_alloc]) is
    not modelled: an allocation always finds an unused address. *)

From Stdlib Require Import ZArith String Lia.
From stdpp Require Import base option list gmap fin_maps fin_sets.

Local Open Scope Z_scope.

(** ** Data model *)

(** Addresses of nodes.  [positive] has no zero, as a non-null pointer. *)
Definition loc := positive.

(** [Node*] and [std::shared_ptr<Node>]: an address or [nullptr]. *)
Definition ptr := option loc.

(** [struct Node { T data; std::shared_ptr<Node> next; }] *)
Record Node (T : Type) := mkNode { data : T; next : ptr }.
Arguments mkNode {T} _ _.
Arguments data {T} _.
Arguments next {T} _.

(** The fields of a [SinglyLinkedList<T>] object. *)
Record SinglyLinkedList := mkList {
  head : ptr;        (* std::shared_ptr<Node> head *)
  tail : ptr;        (* Node* tail *)
  list_size : Z      (* std::size_t list_size *)
}.

(** [std::size_t] is an unsigned 64-bit integer: [++] and [--] wrap. *)
Definition size_modulus : Z := 2 ^ 64.
Definition wrap (z : Z) : Z := z mod size_modulus.
Definition incr (z : Z) : Z := wrap (z + 1).
Definition decr (z : Z) : Z := wrap (z - 1).

(** What a call did.  [Throw what] is [throw std::runtime_error(what)];
    [Fault] is undefined behaviour (a null or dangling pointer is
    dereferenced); [Diverge] is a loop that never ends. *)
Inductive outcome (A : Type) : Type :=
| Ok (a : A)
| Throw (what : string)
| Fault
| Diverge.
Arguments Ok {A} _.
Arguments Throw {A} _.
Arguments Fault {A}.
Arguments Diverge {A}.

(** The error kinds of the specification, read off the messages. *)
Definition EmptyContainer (what : string) : bool :=
  String.prefix "List is empty" what.
Definition PositionNotFound (what : string) : bool :=
  String.eqb what "Position not found.".
Definition InvalidOperation (what : string) : bool :=
  String.eqb what "Cannot erase before the first element.".
Definition InvalidSize (what : string) : bool :=
  String.eqb what "Array size must be a positive integer.".
Definition LengthMismatch (what : string) : bool :=
  String.eqb what "List size exceeds array size."
  || String.eqb what "Array size exceeds list size.".

Section SinglyLinkedList.

Context {T : Type}.

Abbreviation heap := (gmap loc (Node T)).

(** The state a member function runs in: the heap and [*this]. *)
Abbreviation config := (heap * SinglyLinkedList)%type.

(** A member function: the outcome and the state at that point. *)
Definition M (A : Type) : Type := config -> outcome A * config.

(** [std::make_unique<Node>] returns an address that is not in use.
    Which one is the allocator's business. *)
Variable alloc : heap -> loc.
Hypothesis alloc_fresh : forall h : heap, h !! alloc h = None.

(** *** Releasing a [shared_ptr]

    No [shared_ptr] is ever copied in the class, so every node has one
    owner: dropping the owner's pointer destroys the node, whose [next]
    member is destroyed with it, and so on down the chain.  Every step
    removes a node from the heap, so [size h] steps are always enough. *)
Fixpoint release_fuel (fuel : nat) (h : heap) (p : ptr) : heap :=
  match fuel, p with
  | S f, Some l =>
      match h !! l with
      | Some n => release_fuel f (delete l h) (next n)
      | None => h
      end
  | _, _ => h
  end.

Definition release (h : heap) (p : ptr) : heap := release_fuel (size h) h p.

(** Loops that follow [next] pointers get as many steps as the heap has
    nodes, plus one: a walk that needs more is going round a cycle. *)
Definition steps (h : heap) : nat := S (size h).

(** ** Member functions *)

(** [SinglyLinkedList() : head(nullptr), tail(nullptr), list_size(0)] *)
Definition empty_list : SinglyLinkedList := mkList None None 0.

(** [void push_back(T val)] *)
Definition push_back (val : T) : M unit := fun '(h, l) =>
  let newNodePtr := alloc h in
  let h1 := <[newNodePtr := mkNode val None]> h in
  match head l with
  | None =>
      (Ok tt, (h1, mkList (Some newNodePtr) (Some newNodePtr)
                          (incr (list_size l))))
  | Some _ =>
      match tail l with
      | None => (Fault, (h, l))
      | Some t =>
          match h1 !! t with
          | None => (Fault, (h, l))
          | Some n =>
              (* tail->next = std::move(newNode): the old pointee goes *)
              let h2 := <[t := mkNode (data n) (Some newNodePtr)]> h1 in
              let h3 := release h2 (next n) in
              (Ok tt, (h3, mkList (head l) (Some newNodePtr)
                                  (incr (list_size l))))
          end
      end
  end.

(** [void push_front(T val)] *)
Definition push_front (val : T) : M unit := fun '(h, l) =>
  let p := alloc h in
  match head l with
  | None =>
      (Ok tt, (<[p := mkNode val None]> h,
               mkList (Some p) (Some p) (incr (list_size l))))
  | Some hd =>
      (Ok tt, (<[p := mkNode val (Some hd)]> h,
               mkList (Some p) (tail l) (incr (list_size l))))
  end.

(** The loop of [pop_back]:
    [while (current->next.get() != tail) current = current->next.get();] *)
Fixpoint walk_to_tail (fuel : nat) (h : heap) (current : ptr) (tl : ptr)
  : outcome loc :=
  match fuel with
  | O => Diverge
  | S f =>
      match current with
      | None => Fault
      | Some c =>
          match h !! c with
          | None => Fault
          | Some n =>
              if decide (next n = tl) then Ok c
              else walk_to_tail f h (next n) tl
          end
      end
  end.

(** [void pop_back()] *)
Definition pop_back : M unit := fun '(h, l) =>
  match head l with
  | None => (Throw "List is empty: cannot pop back.", (h, l))
  | Some hd =>
      if decide (head l = tail l) then
        (Ok tt, (release h (head l), mkList None None (decr (list_size l))))
      else
        match walk_to_tail (steps h) h (Some hd) (tail l) with
        | Ok c =>
            match h !! c with
            | None => (Fault, (h, l))
            | Some n =>
                (* current->next.reset() *)
                let h1 := <[c := mkNode (data n) None]> h in
                let h2 := release h1 (next n) in
                (Ok tt, (h2, mkList (head l) (Some c) (decr (list_size l))))
            end
        | Throw w => (Throw w, (h, l))
        | Fault => (Fault, (h, l))
        | Diverge => (Diverge, (h, l))
        end
  end.

(** [void pop_front()] *)
Definition pop_front : M unit := fun '(h, l) =>
  match head l with
  | None => (Throw "List is empty: cannot pop front.", (h, l))
  | Some hd =>
      match h !! hd with
      | None => (Fault, (h, l))
      | Some n =>
          (* head = std::move(head->next): the old first node goes,
             alone, since its next has been moved out of it *)
          let h1 := delete hd h in
          let tl := match next n with None => None | Some _ => tail l end in
          (Ok tt, (h1, mkList (next n) tl (decr (list_size l))))
      end
  end.

(** The loop of [insert_before]:
    [while (current && current->next.get() != pos) { prev = current;
    current = current->next.get(); }]  It returns [current]. *)
Fixpoint find_pred (fuel : nat) (h : heap) (current : ptr) (pos : ptr)
  : outcome ptr :=
  match fuel with
  | O => Diverge
  | S f =>
      match current with
      | None => Ok None
      | Some c =>
          match h !! c with
          | None => Fault
          | Some n =>
              if decide (next n = pos) then Ok (Some c)
              else find_pred f h (next n) pos
          end
      end
  end.

(** [void insert_before(Node* pos, T val)] *)
Definition insert_before (pos : ptr) (val : T) : M unit := fun '(h, l) =>
  if decide (pos = head l) then push_front val (h, l)
  else
    match find_pred (steps h) h (head l) pos with
    | Ok None => (Throw "Position not found.", (h, l))
    | Ok (Some c) =>
        match h !! c with
        | None => (Fault, (h, l))
        | Some n =>
            let p := alloc h in
            (* newNode->next = std::move(current->next);
               current->next = std::move(newNode); *)
            let h1 := <[p := mkNode val (next n)]> h in
            let h2 := <[c := mkNode (data n) (Some p)]> h1 in
            (* if (current->next.get() == tail) tail = current->next.get(); *)
            let tl := if decide (Some p = tail l) then Some p else tail l in
            (Ok tt, (h2, mkList (head l) tl (incr (list_size l))))
        end
    | Throw w => (Throw w, (h, l))
    | Fault => (Fault, (h, l))
    | Diverge => (Diverge, (h, l))
    end.

(** The loop of [erase_before]:
    [while (current->next.get() != pos) { prev = current;
    current = current->next.get();
    if (!current->next) throw std::runtime_error("Position not found."); }]
    It returns [prev] and [current]. *)
Fixpoint erase_walk (fuel : nat) (h : heap) (prev : ptr) (current : ptr)
    (pos : ptr) : outcome (ptr * loc) :=
  match fuel with
  | O => Diverge
  | S f =>
      match current with
      | None => Fault
      | Some c =>
          match h !! c with
          | None => Fault
          | Some n =>
              if decide (next n = pos) then Ok (prev, c)
              else
                match next n with
                | None => Fault
                | Some c' =>
                    match h !! c' with
                    | None => Fault
                    | Some n' =>
                        match next n' with
                        | None => Throw "Position not found."
                        | Some _ => erase_walk f h (Some c) (Some c') pos
                        end
                    end
                end
          end
      end
  end.

(** [void erase_before(Node* pos)] *)
Definition erase_before (pos : ptr) : M unit := fun '(h, l) =>
  if decide (pos = head l) then
    (Throw "Cannot erase before the first element.", (h, l))
  else
    match head l with
    | None => (Throw "Cannot erase before the first element.", (h, l))
    | Some hd =>
        match erase_walk (steps h) h None (Some hd) pos with
        | Ok (None, _) => (Ok tt, (h, l))
        | Ok (Some pv, c) =>
            match h !! pv, h !! c with
            | Some np, Some nc =>
                (* prev->next = std::move(current->next): current goes *)
                let h1 := <[c := mkNode (data nc) None]> h in
                let h2 := <[pv := mkNode (data np) (next nc)]> h1 in
                let h3 := release h2 (next np) in
                let tl := match next nc with
                          | None => Some pv
                          | Some _ => tail l
                          end in
                (Ok tt, (h3, mkList (head l) tl (decr (list_size l))))
            | _, _ => (Fault, (h, l))
            end
        | Throw w => (Throw w, (h, l))
        | Fault => (Fault, (h, l))
        | Diverge => (Diverge, (h, l))
        end
    end.

(** [void clear()] *)
Definition clear : M unit := fun '(h, l) =>
  (Ok tt, (release h (head l), mkList None None 0)).

(** [T getHead() const] *)
Definition getHead : M T := fun '(h, l) =>
  match head l with
  | None => (Throw "List is empty: cannot access head.", (h, l))
  | Some hd =>
      match h !! hd with
      | None => (Fault, (h, l))
      | Some n => (Ok (data n), (h, l))
      end
  end.

(** [T getTail() const] *)
Definition getTail : M T := fun '(h, l) =>
  match tail l with
  | None => (Throw "List is empty: cannot access tail.", (h, l))
  | Some t =>
      match h !! t with
      | None => (Fault, (h, l))
      | Some n => (Ok (data n), (h, l))
      end
  end.

(** [std::size_t size() const] *)
Definition size_ (c : config) : Z := list_size (snd c).

(** *** Iteration

    [for (const auto& item : *this)] starts at [begin()], which is
    [head.get()], dereferences, steps with [operator++]
    ([current = current->next.get()]) and stops at [end()], which is
    [nullptr]. *)

(** The loop of [to_vector]: [vec.push_back(item)] for every item. *)
Fixpoint to_vector_loop (fuel : nat) (h : heap) (current : ptr)
    (vec : list T) : outcome (list T) :=
  match fuel with
  | O => Diverge
  | S f =>
      match current with
      | None => Ok vec
      | Some c =>
          match h !! c with
          | None => Fault
          | Some n => to_vector_loop f h (next n) (vec ++ [data n])
          end
      end
  end.

(** [std::vector<T> to_vector() const] *)
Definition to_vector (c : config) : outcome (list T) :=
  to_vector_loop (steps (fst c)) (fst c) (head (snd c)) [].

(** The loop shared by the range constructor and the assignments from
    containers: [for (const auto& item : vec) push_back(item);] *)
Fixpoint push_back_all (vec : list T) : M unit := fun c =>
  match vec with
  | [] => (Ok tt, c)
  | item :: rest =>
      match push_back item c with
      | (Ok _, c') => push_back_all rest c'
      | r => r
      end
  end.

(** [SinglyLinkedList(std::initializer_list<T> initList)], which goes
    through the range constructor, run in heap [h]. *)
Definition from_initializer_list (initList : list T) (h : heap)
  : outcome unit * config :=
  push_back_all initList (h, empty_list).

(** [SinglyLinkedList& operator=(const std::vector<T>& vec)] *)
Definition assign_vector (vec : list T) : M unit := fun c =>
  match clear c with
  | (Ok _, c') => push_back_all vec c'
  | r => r
  end.

(** [template<std::size_t N> std::array<T, N> to_array_pad() const]

    [arr] is the array as [std::array<T, N> arr;] leaves it: [N] slots
    whose contents the caller of the model supplies ([T]'s default
    constructor ran on them, or nothing did).  [T_default] is [T()]. *)
Variable T_default : T.

(** [for (const auto& item : *this) { if (i >= N) throw ...;
    arr[i++] = item; }] *)
Fixpoint to_array_pad_loop (fuel : nat) (h : heap) (current : ptr)
    (N : nat) (i : nat) (arr : list T) : outcome (nat * list T) :=
  match fuel with
  | O => Diverge
  | S f =>
      match current with
      | None => Ok (i, arr)
      | Some c =>
          match h !! c with
          | None => Fault
          | Some n =>
              if decide (N <= i)%nat
              then Throw "List size exceeds array size."
              else to_array_pad_loop f h (next n) N (S i)
                     (<[i := data n]> arr)
          end
      end
  end.

Definition to_array_pad (N : nat) (arr : list T) (c : config)
  : outcome (list T) :=
  if decide (N < 1)%nat then Throw "Array size must be a positive integer."
  else
    match to_array_pad_loop (steps (fst c)) (fst c) (head (snd c)) N 0 arr with
    | Ok (i, arr') =>
        (* if (i < N) arr.fill(T()); *)
        if decide (i < N)%nat then Ok (replicate N T_default) else Ok arr'
    | Throw w => Throw w
    | Fault => Fault
    | Diverge => Diverge
    end.

(** ** Several list objects

    Copying and moving involve two objects, and [this != &other]
    compares their identities: list objects are named, and a machine
    state holds the heap of nodes and the fields of every object. *)
Record machine := mkMachine {
  mem : heap;
  objs : gmap string SinglyLinkedList
}.

(** Calling member function [m] on the object named [this]. *)
Definition call {A} (this : string) (m : M A) (w : machine)
  : outcome A * machine :=
  match objs w !! this with
  | None => (Fault, w)
  | Some l =>
      let '(r, (h', l')) := m (mem w, l) in
      (r, mkMachine h' (<[this := l']> (objs w)))
  end.

(** A [const] member function on the object named [this]. *)
Definition observe {A} (this : string) (f : config -> A) (w : machine)
  : option A :=
  match objs w !! this with
  | None => None
  | Some l => Some (f (mem w, l))
  end.

(** [SinglyLinkedList(SinglyLinkedList&& other) noexcept
      : head(std::move(other.head)), tail(other.tail),
        list_size(other.list_size)
    { other.tail = nullptr; other.list_size = 0; }] *)
Definition move_construct (this other : string) (w : machine)
  : outcome unit * machine :=
  match objs w !! other with
  | None => (Fault, w)
  | Some o =>
      (Ok tt, mkMachine (mem w)
                (<[other := mkList None None 0]>
                   (<[this := mkList (head o) (tail o) (list_size o)]>
                      (objs w))))
  end.

(** [SinglyLinkedList& operator=(SinglyLinkedList&& other) noexcept] *)
Definition move_assign (this other : string) (w : machine)
  : outcome unit * machine :=
  if decide (this = other) then (Ok tt, w)
  else
    match objs w !! this, objs w !! other with
    | Some t, Some o =>
        (* head = std::move(other.head): the old chain of *this goes *)
        let h1 := release (mem w) (head t) in
        (Ok tt, mkMachine h1
                  (<[other := mkList None None 0]>
                     (<[this := mkList (head o) (tail o) (list_size o)]>
                        (objs w))))
    | _, _ => (Fault, w)
    end.

(** The loop of the copy constructor:
    [while (current != nullptr) { push_back(current->data);
    current = current->next.get(); }] *)
Fixpoint copy_loop (fuel : nat) (this : string) (current : ptr)
    (w : machine) : outcome unit * machine :=
  match fuel with
  | O => (Diverge, w)
  | S f =>
      match current with
      | None => (Ok tt, w)
      | Some c =>
          match mem w !! c with
          | None => (Fault, w)
          | Some n =>
              match call this (push_back (data n)) w with
              | (Ok _, w1) =>
                  match mem w1 !! c with
                  | None => (Fault, w1)
                  | Some n1 => copy_loop f this (next n1) w1
                  end
              | r => r
              end
          end
      end
  end.

(** [SinglyLinkedList(const SinglyLinkedList& other)
      : head(nullptr), tail(nullptr), list_size(0)] *)
Definition copy_construct (this other : string) (w : machine)
  : outcome unit * machine :=
  let w0 := mkMachine (mem w) (<[this := empty_list]> (objs w)) in
  if decide (this = other) then (Ok tt, w0)
  else
    match call this clear w0 with
    | (Ok _, w1) =>
        match objs w1 !! other with
        | None => (Fault, w1)
        | Some o => copy_loop (steps (mem w1)) this (head o) w1
        end
    | r => r
    end.

(** The mutations a caller applies to a list. *)
Inductive mutation :=
| Append (v : T)
| Prepend (v : T)
| RemoveFirst
| RemoveLast
| Clear.

Definition mutate (op : mutation) : M unit :=
  match op with
  | Append v => push_back v
  | Prepend v => push_front v
  | RemoveFirst => pop_front
  | RemoveLast => pop_back
  | Clear => clear
  end.

(** A run of mutations on [*this] that stops at the first call that
    does not return. *)
Fixpoint run (ops : list mutation) : M unit := fun c =>
  match ops with
  | [] => (Ok tt, c)
  | op :: rest =>
      match mutate op c with
      | (Ok _, c') => run rest c'
      | r => r
      end
  end.

(** A run of mutations on the object named [this] by a caller that
    catches what a call throws and goes on. *)
Definition run_caught (this : string) (ops : list mutation) (w : machine)
  : machine :=
  fold_left (fun w op => snd (call this (mutate op) w)) ops w.

(** ** The other conversions *)

(** What the loop of a fixed-size conversion did: it ran to [end()]
    with [i] elements stored, or it left the function from inside with
    [return arr;]. *)
Inductive loop_exit :=
| Finished (i : nat) (arr : list T)
| Returned (arr : list T).

(** [for (const auto& item : *this) { if (i >= N) return arr;
    arr[i++] = item; }], the loop of [to_array_cut] and
    [to_array_auto]. *)
Fixpoint to_array_cut_loop (fuel : nat) (h : heap) (current : ptr)
    (N : nat) (i : nat) (arr : list T) : outcome loop_exit :=
  match fuel with
  | O => Diverge
  | S f =>
      match current with
      | None => Ok (Finished i arr)
      | Some c =>
          match h !! c with
          | None => Fault
          | Some n =>
              if decide (N <= i)%nat then Ok (Returned arr)
              else to_array_cut_loop f h (next n) N (S i)
                     (<[i := data n]> arr)
          end
      end
  end.

(** [template<std::size_t N> std::array<T, N> to_array_cut() const] *)
Definition to_array_cut (N : nat) (arr : list T) (c : config)
  : outcome (list T) :=
  if decide (N < 1)%nat then Throw "Array size must be a positive integer."
  else
    match to_array_cut_loop (steps (fst c)) (fst c) (head (snd c)) N 0 arr with
    | Ok (Returned arr') => Ok arr'
    | Ok (Finished i arr') =>
        if decide (i < N)%nat then Throw "Array size exceeds list size."
        else Ok arr'
    | Throw w => Throw w
    | Fault => Fault
    | Diverge => Diverge
    end.

(** [template<std::size_t N> std::array<T, N> to_array_auto() const] *)
Definition to_array_auto (N : nat) (arr : list T) (c : config)
  : outcome (list T) :=
  if decide (N < 1)%nat then Throw "Array size must be a positive integer."
  else
    match to_array_cut_loop (steps (fst c)) (fst c) (head (snd c)) N 0 arr with
    | Ok (Returned arr') => Ok arr'
    | Ok (Finished i arr') =>
        (* if (i < N) arr.fill(T()); *)
        if decide (i < N)%nat then Ok (replicate N T_default) else Ok arr'
    | Throw w => Throw w
    | Fault => Fault
    | Diverge => Diverge
    end.

(** The loop of [to_list]: [stdList.push_back(item)] for every item. *)
Fixpoint to_list_loop (fuel : nat) (h : heap) (current : ptr)
    (stdList : list T) : outcome (list T) :=
  match fuel with
  | O => Diverge
  | S f =>
      match current with
      | None => Ok stdList
      | Some c =>
          match h !! c with
          | None => Fault
          | Some n => to_list_loop f h (next n) (stdList ++ [data n])
          end
      end
  end.

(** [std::list<T> to_list() const] *)
Definition to_list (c : config) : outcome (list T) :=
  to_list_loop (steps (fst c)) (fst c) (head (snd c)) [].

(** [SinglyLinkedList& operator=(std::initializer_list<T> initList)] *)
Definition assign_initializer_list (initList : list T) : M unit := fun c =>
  match clear c with
  | (Ok _, c') => push_back_all initList c'
  | r => r
  end.

(** [template<std::size_t N>
    SinglyLinkedList& operator=(const std::array<T, N>& arr)] *)
Definition assign_array (arr : list T) : M unit := fun c =>
  match clear c with
  | (Ok _, c') => push_back_all arr c'
  | r => r
  end.

(** [SinglyLinkedList& operator=(const std::list<T>& stdList)] *)
Definition assign_list (stdList : list T) : M unit := fun c =>
  match clear c with
  | (Ok _, c') => push_back_all stdList c'
  | r => r
  end.

(** ** Iterators

    An [Iterator] holds [Node* current]. *)

(** [Iterator begin() { return Iterator(head.get()); }] *)
Definition begin_ (c : config) : ptr := head (snd c).

(** [Iterator end() { return Iterator(nullptr); }] *)
Definition end_ : ptr := None.

(** [T& operator*() const { return current->data; }] *)
Definition iterator_deref (h : heap) (current : ptr) : outcome T :=
  match current with
  | None => Fault
  | Some c =>
      match h !! c with
      | None => Fault
      | Some n => Ok (data n)
      end
  end.

(** [Iterator& operator++() { current = current->next.get(); ... }] *)
Definition iterator_incr (h : heap) (current : ptr) : outcome ptr :=
  match current with
  | None => Fault
  | Some c =>
      match h !! c with
      | None => Fault
      | Some n => Ok (next n)
      end
  end.

(** [operator++] applied [n] times. *)
Fixpoint iterator_advance (h : heap) (current : ptr) (n : nat)
  : outcome ptr :=
  match n with
  | O => Ok current
  | S m =>
      match iterator_incr h current with
      | Ok current' => iterator_advance h current' m
      | o => o
      end
  end.

End SinglyLinkedList.

Arguments mutation : clear implicits.
Arguments machine : clear implicits.
Arguments loop_exit : clear implicits.

(** ** What the heap must look like

    [lseg h p cs q]: starting at [p] and following [next], the heap [h]
    holds the nodes [cs] (address and value, in order), and the [next] of
    the last one is [q]. *)
Fixpoint lseg {T} (h : gmap loc (Node T)) (p : ptr) (cs : list (loc * T))
    (q : ptr) : Prop :=
  match cs with
  | [] => p = q
  | (k, x) :: cs' =>
      p = Some k /\ exists r, h !! k = Some (mkNode x r) /\ lseg h r cs' q
  end.

(** [rep h l cs]: the object [l] is a well-formed list whose nodes are
    [cs]: the chain from [head] ends in [nullptr], [tail] is the address
    of the last node and [list_size] is the number of nodes. *)
Definition rep {T} (h : gmap loc (Node T)) (l : SinglyLinkedList)
    (cs : list (loc * T)) : Prop :=
  lseg h (head l) cs None /\ NoDup cs.*1 /\ tail l = last cs.*1 /\
  list_size l = wrap (Z.of_nat (length cs)).

(** [framed cs h h' cs']: going from heap [h] to [h'], a call on a list
    whose nodes were [cs] and are [cs'] afterwards left every other node
    of [h] alone, and took its new nodes from the unused addresses. *)
Definition framed {T} (cs : list (loc * T)) (h h' : gmap loc (Node T))
    (cs' : list (loc * T)) : Prop :=
  (forall k, k ∉ cs.*1 -> is_Some (h !! k) -> h' !! k = h !! k) /\
  (forall k, k ∈ cs'.*1 -> k ∈ cs.*1 \/ h !! k = None).

(** [pair_inv a b la cs w]: object [a] still has the fields [la] and the
    nodes [cs], and object [b] is a well-formed list on nodes of its
    own. *)
Definition pair_inv {T} (a b : string) (la : SinglyLinkedList)
    (cs : list (loc * T)) (w : machine T) : Prop :=
  objs w !! a = Some la /\ rep (mem w) la cs /\
  exists lb cb, objs w !! b = Some lb /\ rep (mem w) lb cb /\
                forall k, k ∈ cs.*1 -> k ∉ cb.*1.

(** The value-level reading of the mutations. [None]: nothing to remove. *)
Definition apply_op {T} (op : mutation T) (xs : list T) : option (list T) :=
  match op with
  | Append v => Some (xs ++ [v])
  | Prepend v => Some (v :: xs)
  | RemoveFirst => match xs with [] => None | _ :: xs' => Some xs' end
  | RemoveLast => match xs with [] => None | _ => Some (removelast xs) end
  | Clear => Some []
  end.

Fixpoint apply_ops {T} (ops : list (mutation T)) (xs : list T)
  : option (list T) :=
  match ops with
  | [] => Some xs
  | op :: rest =>
      match apply_op op xs with
      | Some ys => apply_ops rest ys
      | None => None
      end
  end.

(** Counting the calls of a run. *)
Definition is_add {T} (op : mutation T) : bool :=
  match op with Append _ | Prepend _ => true | _ => false end.
Definition is_remove {T} (op : mutation T) : bool :=
  match op with RemoveFirst | RemoveLast => true | _ => false end.
Definition adds {T} (ops : list (mutation T)) : nat :=
  length (filter (fun op => is_add op = true) ops).
Definition removes {T} (ops : list (mutation T)) : nat :=
  length (filter (fun op => is_remove op = true) ops).

(** The run only uses the four operations at the two ends. *)
Definition ends_only {T} (ops : list (mutation T)) : bool :=
  forallb (fun op => is_add op || is_remove op) ops.

(** Starting with [n] elements, the run never removes from an empty
    list. *)
Fixpoint never_underflows {T} (n : nat) (ops : list (mutation T)) : bool :=
  match ops with
  | [] => true
  | Append _ :: rest | Prepend _ :: rest => never_underflows (S n) rest
  | RemoveFirst :: rest | RemoveLast :: rest =>
      match n with
      | O => false
      | S m => never_underflows m rest
      end
  | Clear :: rest => never_underflows O rest
  end.

(** [arr[i++] = item] for every item of [xs], starting at index [i]. *)
Fixpoint store_from {T} (i : nat) (xs : list T) (arr : list T) : list T :=
  match xs with
  | [] => arr
  | x :: xs' => store_from (S i) xs' (<[i := x]> arr)
  end.

(** The nodes of the heap are exactly the nodes [cs]: nothing leaked. *)
Definition owns_all {T} (h : gmap loc (Node T)) (cs : list (loc * T))
  : Prop :=
  forall k, is_Some (h !! k) <-> k ∈ cs.*1.

(** ** The structural invariants, as the specification words them *)

(** Following [next] links [n] times from [p]. *)
Fixpoint nth_next {T} (h : gmap loc (Node T)) (p : ptr) (n : nat) : ptr :=
  match n with
  | O => p
  | S m =>
      match p with
      | None => None
      | Some c =>
          match h !! c with
          | None => None
          | Some nd => nth_next h (next nd) m
          end
      end
  end.

(** [size == 0] iff [head] is null iff [tail] is null; [tail] is reached
    from [head] by following [next] exactly [size - 1] times; and
    [tail]'s [next] is null. *)
Definition structural_invariants {T}
    (c : gmap loc (Node T) * SinglyLinkedList) : bool :=
  let '(h, l) := c in
  bool_decide (list_size l = 0 <-> head l = None)
  && bool_decide (head l = None <-> tail l = None)
  && match head l with
     | None => true
     | Some _ =>
         bool_decide (nth_next h (head l) (Z.to_nat (list_size l - 1))
                      = tail l)
     end
  && match tail l with
     | None => true
     | Some t =>
         match h !! t with
         | None => false
         | Some n => bool_decide (next n = None)
         end
     end.

(** ** Equality *)

(** Modelled from the spec: [operator==], which the test program calls
    ([assert(list2 == list3)]) and SinglyLinkedList.hpp does not define.
    "Two lists are equal iff same size and elementwise-equal in
    traversal order": the sizes are compared, and the items the two
    iterations yield are compared pairwise. *)
Fixpoint elementwise_equal {T} `{EqDecision T} (xs ys : list T) : bool :=
  match xs, ys with
  | [], [] => true
  | x :: xs', y :: ys' => bool_decide (x = y) && elementwise_equal xs' ys'
  | _, _ => false
  end.

(** Modelled from the spec: see [elementwise_equal]. *)
Definition equality {T} `{EqDecision T} (h : gmap loc (Node T))
    (a b : SinglyLinkedList) : outcome bool :=
  match to_vector (h, a), to_vector (h, b) with
  | Ok xs, Ok ys =>
      Ok (bool_decide (size_ (h, a) = size_ (h, b))
          && elementwise_equal xs ys)
  | Throw w, _ | Ok _, Throw w => Throw w
  | Fault, _ | Ok _, Fault => Fault
  | Diverge, _ | Ok _, Diverge => Diverge
  end.

(** ** A concrete instance: [SinglyLinkedList<int>] with the allocator
    that hands out the first address not in use. *)
Definition first_free {T} (h : gmap loc (Node T)) : loc := fresh (dom h).

(** A heap with the list [1, 2, 3] at addresses 1, 2 and 3 and the list
    [3, 2, 1] at addresses 4, 5 and 6. *)
Definition heap_ex : gmap loc (Node Z) :=
  <[1%positive := mkNode 1 (Some 2%positive)]>
  (<[2%positive := mkNode 2 (Some 3%positive)]>
  (<[3%positive := mkNode 3 None]>
  (<[4%positive := mkNode 3 (Some 5%positive)]>
  (<[5%positive := mkNode 2 (Some 6%positive)]>
  (<[6%positive := mkNode 1 None]> ∅))))).

Definition list_a : SinglyLinkedList :=
  mkList (Some 1%positive) (Some 3%positive) 3.
Definition list_b : SinglyLinkedList :=
  mkList (Some 4%positive) (Some 6%positive) 3.
Definition nodes_a : list (loc * Z) :=
  [(1%positive, 1); (2%positive, 2); (3%positive, 3)].
Definition nodes_b : list (loc * Z) :=
  [(4%positive, 3); (5%positive, 2); (6%positive, 1)].

(** The list [1, 2, 3] alone in its heap. *)
Definition heap_a : gmap loc (Node Z) :=
  <[1%positive := mkNode 1 (Some 2%positive)]>
  (<[2%positive := mkNode 2 (Some 3%positive)]>
  (<[3%positive := mkNode 3 None]> ∅)).

(** A heap with the one-element list [42] at address 7. *)
Definition heap_one : gmap loc (Node Z) := <[7%positive := mkNode 42 None]> ∅.
Definition list_one : SinglyLinkedList :=
  mkList (Some 7%positive) (Some 7%positive) 1.

(** The two lists as the objects ["a"%string] and ["b"%string]. *)
Definition machine_ex : machine Z :=
  mkMachine heap_ex (<["a"%string := list_a]> (<["b"%string := list_b]> ∅)).

(** ** Proofs *)

Lemma first_free_fresh {T} (h : gmap loc (Node T)) : h !! first_free h = None.
Proof. apply not_elem_of_dom, is_fresh. Qed.

Section Chains.

Context {T : Type}.
Implicit Types (h : gmap loc (Node T)) (p q : ptr) (cs : list (loc * T)).

Lemma lseg_ext h h' p cs q :
  (forall k, k ∈ cs.*1 -> h' !! k = h !! k) ->
  lseg h p cs q -> lseg h' p cs q.
Proof.
  revert p. induction cs as [|[k x] cs IH]; intros p Hag; simpl; [done|].
  intros [-> (r & Hk & Hr)]. split; [done|]. exists r. split.
  - rewrite Hag; [done|]. simpl. left.
  - apply IH; [|done]. intros k' Hk'. apply Hag. simpl. by right.
Qed.

Lemma lseg_cons h k x r cs q :
  h !! k = Some (mkNode x r) -> lseg h r cs q ->
  lseg h (Some k) ((k, x) :: cs) q.
Proof. intros Hk Hr. split; [done|]. by exists r. Qed.

Lemma lseg_app h p cs1 cs2 q :
  lseg h p (cs1 ++ cs2) q <-> exists r, lseg h p cs1 r /\ lseg h r cs2 q.
Proof.
  revert p. induction cs1 as [|[k x] cs1 IH]; intros p; simpl.
  - split; [intros H; by exists p | by intros (r & -> & H)].
  - split.
    + intros [-> (r & Hk & Hr)]. apply IH in Hr as (r' & H1 & H2).
      exists r'. split; [|done]. split; [done|]. by exists r.
    + intros (r' & [-> (r & Hk & Hr)] & H2). split; [done|].
      exists r. split; [done|]. apply IH. by exists r'.
Qed.

Lemma lseg_is_Some h p cs q k :
  lseg h p cs q -> k ∈ cs.*1 -> is_Some (h !! k).
Proof.
  revert p. induction cs as [|[k' x] cs IH]; intros p; simpl.
  - intros _ Hk. by apply elem_of_nil in Hk.
  - intros [-> (r & Hk' & Hr)] [->|Hin]%elem_of_cons; [by eexists|].
    by eapply IH.
Qed.

Lemma lseg_length h p cs q :
  lseg h p cs q -> NoDup cs.*1 -> (length cs <= size h)%nat.
Proof.
  intros Hl Hnd.
  rewrite <- (length_fmap fst cs), <- (size_list_to_set (C:=gset loc)) by done.
  rewrite <- size_dom. apply subseteq_size.
  intros k Hk%elem_of_list_to_set. apply elem_of_dom. by eapply lseg_is_Some.
Qed.

(** Releasing the pointer to a chain deletes exactly its nodes. *)
Lemma release_fuel_lookup fuel h p cs k :
  lseg h p cs None -> NoDup cs.*1 -> (length cs <= fuel)%nat ->
  release_fuel fuel h p !! k = if decide (k ∈ cs.*1) then None else h !! k.
Proof.
  revert fuel h p. induction cs as [|[c x] cs IH]; intros fuel h p.
  - cbn [lseg]. intros -> _ _. case_decide as Hin.
    + by apply elem_of_nil in Hin.
    + by destruct fuel.
  - cbn [lseg]. rewrite fmap_cons. cbn [fst length].
    intros [-> (r & Hc & Hr)] [Hnotin Hnd]%NoDup_cons Hfuel.
    destruct fuel as [|fuel]; [lia|]. cbn [release_fuel]. rewrite Hc.
    cbn [next].
    rewrite (IH fuel (delete c h) r); [| |done|lia].
    + destruct (decide (k = c)) as [->|Hne].
      * rewrite (decide_True (P := c ∈ c :: cs.*1))
          by (apply elem_of_cons; by left).
        case_decide; [done|apply lookup_delete_eq].
      * rewrite lookup_delete_ne by done.
        do 2 case_decide; try done.
        -- exfalso. apply H0, elem_of_cons. by right.
        -- apply elem_of_cons in H0 as [->|?]; done.
    + eapply lseg_ext; [|done]. intros k' Hk'.
      apply lookup_delete_ne. intros ->. done.
Qed.

Lemma release_lookup h p cs k :
  lseg h p cs None -> NoDup cs.*1 ->
  release h p !! k = if decide (k ∈ cs.*1) then None else h !! k.
Proof.
  intros Hl Hnd. apply release_fuel_lookup; [done..|].
  by eapply lseg_length.
Qed.

Lemma release_null h : release h None = h.
Proof. unfold release. by destruct (size h). Qed.

(** Iteration sees the values of the chain, in order. *)
Lemma to_vector_loop_lseg fuel h p cs vec :
  lseg h p cs None -> (length cs < fuel)%nat ->
  to_vector_loop fuel h p vec = Ok (vec ++ cs.*2).
Proof.
  revert fuel p vec. induction cs as [|[c x] cs IH]; intros fuel p vec; simpl.
  - intros -> Hf. destruct fuel; [lia|]. simpl. by rewrite app_nil_r.
  - intros [-> (r & Hc & Hr)] Hf. destruct fuel; [lia|]. simpl.
    rewrite Hc. simpl. rewrite (IH fuel r); [|done|lia].
    by rewrite <- app_assoc.
Qed.

End Chains.

Lemma incr_wrap z : incr (wrap z) = wrap (z + 1).
Proof. unfold incr, wrap. apply Zplus_mod_idemp_l. Qed.

Lemma decr_wrap z : decr (wrap z) = wrap (z - 1).
Proof. unfold decr, wrap. apply Zminus_mod_idemp_l. Qed.

Lemma wrap_small z : 0 <= z < size_modulus -> wrap z = z.
Proof. apply Z.mod_small. Qed.

Section Operations.

Context {T : Type}.
Variable alloc : gmap loc (Node T) -> loc.
Hypothesis alloc_fresh : forall h : gmap loc (Node T), h !! alloc h = None.

Implicit Types (h : gmap loc (Node T)) (p q : ptr) (cs : list (loc * T)).
Implicit Types (l : SinglyLinkedList) (v : T).

Lemma lseg_fresh h p cs q k :
  lseg h p cs q -> h !! k = None -> k ∉ cs.*1.
Proof.
  intros Hl Hk Hin. destruct (lseg_is_Some _ _ _ _ _ Hl Hin) as [n Hn].
  congruence.
Qed.

Lemma lseg_insert_ne h p cs q k n :
  k ∉ cs.*1 -> lseg h p cs q -> lseg (<[k := n]> h) p cs q.
Proof.
  intros Hk. apply lseg_ext. intros k' Hk'. apply lookup_insert_ne.
  intros ->. done.
Qed.

Lemma fst_snoc cs k v : (cs ++ [(k, v)]).*1 = cs.*1 ++ [k].
Proof. by rewrite fmap_app. Qed.

Lemma snd_snoc cs k v : (cs ++ [(k, v)]).*2 = cs.*2 ++ [v].
Proof. by rewrite fmap_app. Qed.

Lemma rep_nil_inv h l : rep h l [] -> l = empty_list.
Proof.
  intros (Hl & _ & Ht & Hs). destruct l as [hd tl sz]. simpl in *.
  by subst.
Qed.

Lemma rep_empty h : rep h empty_list [].
Proof. repeat split; try done. constructor. Qed.

Lemma push_back_rep h l cs v :
  rep h l cs ->
  exists h' l',
    push_back alloc v (h, l) = (Ok tt, (h', l')) /\
    rep h' l' (cs ++ [(alloc h, v)]) /\
    framed cs h h' (cs ++ [(alloc h, v)]).
Proof.
  intros (Hl & Hnd & Ht & Hs). pose proof (alloc_fresh h) as Hk.
  set (k := alloc h) in *.
  assert (Hsz : incr (list_size l) = wrap (Z.of_nat (length (cs ++ [(k, v)])))).
  { rewrite Hs, incr_wrap, length_app. simpl. f_equal. lia. }
  assert (Hnd' : NoDup (cs ++ [(k, v)]).*1).
  { rewrite fst_snoc. apply NoDup_app. split; [done|]. split.
    - intros k' Hin ->%list_elem_of_singleton.
      by eapply lseg_fresh in Hin.
    - apply NoDup_singleton. }
  assert (Hfr : forall h', (forall k', k' ≠ k -> k' ∉ cs.*1 -> h' !! k' = h !! k') ->
                  framed cs h h' (cs ++ [(k, v)])).
  { intros h' Hh'. split.
    - intros k' Hk' [n Hn]. apply Hh'; [|done]. intros ->. congruence.
    - intros k'. rewrite fst_snoc.
      intros [?| ->%list_elem_of_singleton]%elem_of_app; auto. }
  destruct cs as [|c0 cs0 _] using rev_ind.
  - simpl in Hl. unfold push_back. fold k. rewrite Hl.
    eexists _, _. split; [done|]. split.
    + repeat split; simpl; try done.
      * eexists. split; [apply lookup_insert_eq|done].
    + apply Hfr. intros k' Hne _. by apply lookup_insert_ne.
  - destruct c0 as [t y].
    apply lseg_app in Hl as (r & Hl0 & -> & r' & Hty & Hr'). simpl in Hr'.
    subst r'. rewrite fst_snoc, last_snoc in Ht.
    rewrite fst_snoc in Hnd.
    apply NoDup_app in Hnd as (Hnd0 & Hnt & _).
    assert (Htk : t ≠ k) by congruence.
    assert (Hhd : exists hd, head l = Some hd).
    { destruct cs0 as [|[c z] cs0]; simpl in Hl0; [by eexists|].
      destruct Hl0 as [-> _]. by eexists. }
    destruct Hhd as [hd Hhd].
    unfold push_back. fold k. rewrite Hhd, Ht.
    rewrite lookup_insert_ne by done. rewrite Hty. simpl.
    rewrite release_null.
    eexists _, _. split; [done|]. split.
    + repeat split; simpl; try done.
      * rewrite <- Hhd, <- app_assoc. apply lseg_app. exists (Some t). split.
        -- apply lseg_insert_ne.
           { intros Hin. apply (Hnt t); [done|]. by left. }
           apply lseg_insert_ne; [|done].
           eapply lseg_fresh; done.
        -- simpl. split; [done|]. eexists. split; [apply lookup_insert_eq|].
           split; [done|]. eexists. split; [|done].
           rewrite lookup_insert_ne by done. apply lookup_insert_eq.
      * by rewrite fst_snoc, last_snoc.
    + apply Hfr. intros k' Hne Hnin.
      rewrite lookup_insert_ne.
      * by apply lookup_insert_ne.
      * intros ->. apply Hnin. rewrite fst_snoc.
        apply elem_of_app. right. by left.
Qed.

Lemma push_front_rep h l cs v :
  rep h l cs ->
  exists h' l',
    push_front alloc v (h, l) = (Ok tt, (h', l')) /\
    rep h' l' ((alloc h, v) :: cs) /\
    framed cs h h' ((alloc h, v) :: cs).
Proof.
  intros (Hl & Hnd & Ht & Hs). pose proof (alloc_fresh h) as Hk.
  set (k := alloc h) in *.
  assert (Hkcs : k ∉ cs.*1) by (by eapply lseg_fresh).
  assert (Hsz : incr (list_size l) = wrap (Z.of_nat (length ((k, v) :: cs)))).
  { rewrite Hs, incr_wrap. simpl length. f_equal. lia. }
  assert (Hfr : forall n, framed cs h (<[k := n]> h) ((k, v) :: cs)).
  { intros n. split.
    - intros k' _ [n' Hn']. apply lookup_insert_ne. congruence.
    - intros k' [->|?]%elem_of_cons; auto. }
  unfold push_front. fold k.
  destruct cs as [|[c x] cs].
  - simpl in Hl. rewrite Hl. eexists _, _. split; [done|]. split; [|done].
    split; [|split; [|split]]; try done.
    + simpl. split; [done|]. eexists. split; [apply lookup_insert_eq|done].
    + apply NoDup_singleton.
  - pose proof Hl as [Hhd _]. rewrite Hhd.
    eexists _, _. split; [done|]. split; [|done].
    split; [|split; [|split]]; try done.
    + cbn [head]. eapply lseg_cons; [apply lookup_insert_eq|].
      rewrite <- Hhd. by apply lseg_insert_ne.
    + rewrite fmap_cons. by apply NoDup_cons.
Qed.

Lemma pop_front_rep h l k x cs :
  rep h l ((k, x) :: cs) ->
  exists l',
    pop_front (h, l) = (Ok tt, (delete k h, l')) /\
    rep (delete k h) l' cs /\
    framed ((k, x) :: cs) h (delete k h) cs.
Proof.
  intros ([Hhd (r & Hk & Hr)] & [Hkcs Hnd]%NoDup_cons & Ht & Hs).
  unfold pop_front. rewrite Hhd, Hk. cbn [next].
  eexists. split; [done|]. split.
  - split; [|split; [|split]]; try done; cbn [head tail list_size].
    + eapply lseg_ext; [|done]. intros k' Hk'. apply lookup_delete_ne.
      intros ->. done.
    + destruct cs as [|[c z] cs]; simpl in Hr.
      * by subst r.
      * destruct Hr as [-> _]. by rewrite Ht.
    + rewrite Hs, decr_wrap. simpl length. f_equal. lia.
  - split.
    + intros k' Hk' _. apply lookup_delete_ne. intros ->. apply Hk'. left.
    + intros k' Hk'. left. by right.
Qed.

(** The walk of [pop_back] stops at the node before the last one. *)
Lemma walk_to_tail_lseg fuel h p pre c x t :
  lseg h p (pre ++ [(c, x)]) (Some t) ->
  t ∉ (pre ++ [(c, x)]).*1 ->
  (length pre < fuel)%nat ->
  walk_to_tail fuel h p (Some t) = Ok c.
Proof.
  revert fuel p. induction pre as [|[k z] pre IH]; intros fuel p Hl Ht Hf;
    (destruct fuel as [|fuel]; [simpl in Hf; lia|]).
  - destruct Hl as [-> (r & Hc & Hr)]. simpl in Hr. subst r.
    simpl. rewrite Hc. simpl. by rewrite decide_True.
  - destruct Hl as [-> (r & Hk & Hr)]. simpl. rewrite Hk. simpl.
    assert (Hrt : r ≠ Some t).
    { intros ->. apply Ht. right.
      destruct pre as [|[k' z'] pre]; simpl in Hr;
        destruct Hr as [[= ->] _]; left. }
    rewrite decide_False by done. apply IH; [done| |simpl in Hf; lia].
    intros Hin. apply Ht. by right.
Qed.

Lemma pop_back_rep h l cs t y :
  rep h l (cs ++ [(t, y)]) ->
  exists h' l',
    pop_back (h, l) = (Ok tt, (h', l')) /\
    rep h' l' cs /\
    framed (cs ++ [(t, y)]) h h' cs.
Proof.
  intros (Hl & Hnd & Ht & Hs). rewrite fst_snoc, last_snoc in Ht.
  assert (Hsz : decr (list_size l) = wrap (Z.of_nat (length cs))).
  { rewrite Hs, decr_wrap, length_app. simpl. f_equal. lia. }
  pose proof (lseg_length _ _ _ _ Hl Hnd) as Hlen.
  rewrite length_app in Hlen. simpl in Hlen.
  rewrite fst_snoc in Hnd. apply NoDup_app in Hnd as (Hndcs & Hnt & _).
  assert (Htcs : t ∉ cs.*1).
  { intros Hin. apply (Hnt t Hin). left. }
  apply lseg_app in Hl as (r & Hl0 & Hlt).
  destruct Hlt as [-> (r' & Hty & Hr')]. simpl in Hr'. subst r'.
  destruct cs as [|[c x] cs0 _] using rev_ind.
  - simpl in Hl0. unfold pop_back. rewrite Hl0, Ht.
    rewrite decide_True by done.
    assert (Hrel : forall k, release h (Some t) !! k
                    = if decide (k ∈ [t]) then None else h !! k).
    { intros k. apply (release_lookup h (Some t) [(t, y)]).
      - simpl. split; [done|]. by eexists.
      - apply NoDup_singleton. }
    eexists _, _. split; [done|]. split.
    + split; [|split; [|split]]; try done.
    + split; [|intros k Hk; by apply elem_of_nil in Hk].
      intros k Hk _. rewrite Hrel. by rewrite decide_False.
  - apply lseg_app in Hl0 as Hsplit.
    destruct Hsplit as (rc & Hpre & [-> (r' & Hc & Hr')]).
    simpl in Hr'. subst r'.
    assert (Hhd : exists hd, head l = Some hd ∧ hd ∈ (cs0 ++ [(c, x)]).*1).
    { destruct cs0 as [|[k z] cs0]; simpl in Hpre.
      - exists c. split; [done|]. left.
      - destruct Hpre as [-> _]. exists k. split; [done|]. left. }
    destruct Hhd as (hd & Hhd & Hhdin).
    assert (Hct : c ≠ t).
    { intros ->. apply Htcs. rewrite fst_snoc. apply elem_of_app. right. left. }
    unfold pop_back. rewrite Hhd, Ht.
    rewrite decide_False by (intros [= ->]; done).
    rewrite <- Hhd.
    rewrite (walk_to_tail_lseg _ _ _ cs0 c x t);
      [|done|done|rewrite length_app in Hlen; unfold steps; lia].
    rewrite Hc. cbn [data next].
    set (h1 := <[c := mkNode x None]> h).
    assert (Hrel : forall k, release h1 (Some t) !! k
                    = if decide (k ∈ [t]) then None else h1 !! k).
    { intros k. apply (release_lookup h1 (Some t) [(t, y)]).
      - simpl. split; [done|]. eexists. split; [|done].
        unfold h1. by rewrite lookup_insert_ne.
      - apply NoDup_singleton. }
    pose proof Hndcs as Hnd'.
    eexists _, _. split; [done|]. split.
    + split; [|split; [|split]]; try done; cbn [head tail list_size].
      * apply lseg_app. exists (Some c). split.
        -- eapply lseg_ext; [|exact Hpre]. intros k Hk.
           rewrite Hrel. rewrite decide_False.
           ++ unfold h1. apply lookup_insert_ne. intros Heq. subst k.
              rewrite fst_snoc in Hnd'.
              apply NoDup_app in Hnd' as (_ & Hd & _).
              apply (Hd c Hk). left.
           ++ intros ->%list_elem_of_singleton. apply Htcs.
              rewrite fst_snoc. apply elem_of_app. by left.
        -- simpl. split; [done|]. eexists. split; [|done].
           rewrite Hrel. rewrite decide_False.
           ++ unfold h1. apply lookup_insert_eq.
           ++ by intros ->%list_elem_of_singleton.
      * by rewrite fst_snoc, last_snoc.
    + split; [|intros k Hk; left; rewrite fst_snoc; apply elem_of_app; by left].
      intros k Hk _. rewrite Hrel.
      assert (k ≠ t).
      { intros ->. apply Hk. rewrite fst_snoc. apply elem_of_app. right. left. }
      assert (k ≠ c).
      { intros ->. apply Hk. rewrite !fst_snoc. apply elem_of_app. left.
        apply elem_of_app. right. left. }
      rewrite decide_False by (by intros ->%list_elem_of_singleton).
      unfold h1. by apply lookup_insert_ne.
Qed.

Lemma clear_rep h l cs :
  rep h l cs ->
  exists h',
    clear (h, l) = (Ok tt, (h', empty_list)) /\
    rep h' empty_list [] /\
    framed cs h h' [].
Proof.
  intros (Hl & Hnd & Ht & Hs). eexists. split; [done|].
  split; [apply rep_empty|]. split.
  - intros k Hk _. rewrite (release_lookup _ _ cs) by done.
    by rewrite decide_False.
  - intros k Hk. by apply elem_of_nil in Hk.
Qed.

Lemma framed_refl cs h : framed cs h h cs.
Proof. split; [done|]. intros k Hk. by left. Qed.

Lemma to_vector_rep h l cs : rep h l cs -> to_vector (h, l) = Ok cs.*2.
Proof.
  intros (Hl & Hnd & _ & _). unfold to_vector. cbn [fst snd].
  rewrite (to_vector_loop_lseg _ _ _ cs); [done|done|].
  pose proof (lseg_length _ _ _ _ Hl Hnd). unfold steps. lia.
Qed.

Lemma getHead_rep h l cs :
  rep h l cs ->
  getHead (h, l) =
    (match cs.*2 with
     | [] => Throw "List is empty: cannot access head."
     | x :: _ => Ok x
     end, (h, l)).
Proof.
  intros (Hl & _ & _ & _). unfold getHead.
  destruct cs as [|[k x] cs]; simpl in *.
  - by rewrite Hl.
  - destruct Hl as [-> (r & -> & _)]. done.
Qed.

Lemma getTail_rep h l cs :
  rep h l cs ->
  getTail (h, l) =
    (match last cs.*2 with
     | None => Throw "List is empty: cannot access tail."
     | Some x => Ok x
     end, (h, l)).
Proof.
  intros (Hl & _ & Ht & _). unfold getTail.
  destruct cs as [|[t y] cs _] using rev_ind.
  - simpl in *. by rewrite Ht.
  - rewrite fst_snoc, last_snoc in Ht. rewrite snd_snoc, last_snoc, Ht.
    apply lseg_app in Hl as (r & _ & [-> (r' & -> & _)]). done.
Qed.

(** Every mutation keeps the list well formed, does what its
    value-level reading says, and stays inside its own nodes. *)
Lemma mutate_rep op h l cs :
  rep h l cs ->
  exists h' l' cs',
    snd (mutate alloc op (h, l)) = (h', l') /\
    rep h' l' cs' /\
    framed cs h h' cs' /\
    match apply_op op cs.*2 with
    | Some ys => fst (mutate alloc op (h, l)) = Ok tt /\ cs'.*2 = ys
    | None =>
        (exists w, fst (mutate alloc op (h, l)) = Throw w /\
                   EmptyContainer w = true) /\
        h' = h /\ l' = l /\ cs' = cs
    end.
Proof.
  intros Hrep. destruct op as [v|v| | |]; cbn [mutate apply_op].
  - destruct (push_back_rep _ _ _ v Hrep) as (h' & l' & -> & Hr & Hf).
    exists h', l', (cs ++ [(alloc h, v)]). by rewrite snd_snoc.
  - destruct (push_front_rep _ _ _ v Hrep) as (h' & l' & -> & Hr & Hf).
    by exists h', l', ((alloc h, v) :: cs).
  - destruct cs as [|[k x] cs].
    + apply rep_nil_inv in Hrep as Hl. subst l.
      exists h, empty_list, []. cbn. split; [done|]. split; [done|].
      split; [apply framed_refl|]. split; [|done]. by eexists.
    + destruct (pop_front_rep _ _ _ _ _ Hrep) as (l' & -> & Hr & Hf).
      by exists (delete k h), l', cs.
  - destruct cs as [|[t y] cs _] using rev_ind.
    + apply rep_nil_inv in Hrep as Hl. subst l.
      exists h, empty_list, []. cbn. split; [done|]. split; [done|].
      split; [apply framed_refl|]. split; [|done]. by eexists.
    + destruct (pop_back_rep _ _ _ _ _ Hrep) as (h' & l' & -> & Hr & Hf).
      exists h', l', cs. rewrite snd_snoc, removelast_last.
      destruct (cs.*2 ++ [y]) eqn:E; [by destruct (cs.*2)|done].
  - destruct (clear_rep _ _ _ Hrep) as (h' & -> & Hr & Hf).
    by exists h', empty_list, [].
Qed.

Lemma mutate_ok op h l cs ys :
  rep h l cs -> apply_op op cs.*2 = Some ys ->
  exists h' l' cs',
    mutate alloc op (h, l) = (Ok tt, (h', l')) /\
    rep h' l' cs' /\ cs'.*2 = ys.
Proof.
  intros Hrep Hop.
  destruct (mutate_rep op _ _ _ Hrep) as (h' & l' & cs' & Hs & Hr & _ & Hm).
  rewrite Hop in Hm. destruct Hm as [Hf <-]. exists h', l', cs'.
  split; [|done]. destruct (mutate alloc op (h, l)). simpl in *. congruence.
Qed.

Lemma apply_op_length (op : mutation T) xs ys :
  apply_op op xs = Some ys -> is_add op || is_remove op = true ->
  Z.of_nat (length ys) =
    Z.of_nat (length xs) + (if is_add op then 1 else 0)
    - (if is_remove op then 1 else 0).
Proof.
  destruct op as [v|v| | |]; cbn; intros Hop Hk; try done.
  - injection Hop as <-. rewrite length_app. simpl. lia.
  - injection Hop as <-. simpl. lia.
  - destruct xs; [done|]. injection Hop as <-. simpl. lia.
  - destruct xs as [|y xs _] using rev_ind; [done|].
    rewrite removelast_last in Hop.
    destruct (xs ++ [y]) eqn:E; [by destruct xs|]. injection Hop as <-.
    rewrite <- E, length_app. simpl. lia.
Qed.

Lemma adds_cons (op : mutation T) ops :
  adds (op :: ops) = ((if is_add op then 1 else 0) + adds ops)%nat.
Proof.
  unfold adds. rewrite filter_cons.
  destruct (is_add op); by case_decide.
Qed.

Lemma removes_cons (op : mutation T) ops :
  removes (op :: ops) = ((if is_remove op then 1 else 0) + removes ops)%nat.
Proof.
  unfold removes. rewrite filter_cons.
  destruct (is_remove op); by case_decide.
Qed.

Lemma never_underflows_apply_op (op : mutation T) n ops xs :
  never_underflows n (op :: ops) = true -> length xs = n ->
  exists ys, apply_op op xs = Some ys /\
             never_underflows (length ys) ops = true.
Proof.
  destruct op as [v|v| | |]; cbn; intros Hn Hlen; subst n.
  - eexists. split; [done|]. rewrite length_app. simpl.
    by rewrite Nat.add_1_r.
  - by eexists.
  - destruct xs; [done|]. by eexists.
  - destruct xs as [|y xs _] using rev_ind; [done|].
    rewrite removelast_last. rewrite length_app in Hn. simpl in Hn.
    rewrite Nat.add_1_r in Hn.
    destruct (xs ++ [y]) eqn:E; [by destruct xs|]. by eexists.
  - by eexists.
Qed.

Lemma run_rep ops : forall h l cs,
  rep h l cs -> ends_only ops = true ->
  never_underflows (length cs) ops = true ->
  exists h' l' cs',
    run alloc ops (h, l) = (Ok tt, (h', l')) /\
    rep h' l' cs' /\
    apply_ops ops cs.*2 = Some cs'.*2 /\
    Z.of_nat (length cs') =
      Z.of_nat (length cs) + Z.of_nat (adds ops) - Z.of_nat (removes ops).
Proof.
  induction ops as [|op ops IH]; intros h l cs Hrep He Hn.
  - exists h, l, cs. do 3 (split; [done|]).
    change (adds (@nil (mutation T))) with O.
    change (removes (@nil (mutation T))) with O. lia.
  - cbn [ends_only forallb] in He. apply andb_true_iff in He as [Hop He].
    destruct (never_underflows_apply_op op _ ops cs.*2 Hn) as (ys & Hys & Hn');
      [apply length_fmap|].
    destruct (mutate_ok _ _ _ _ _ Hrep Hys) as (h1 & l1 & cs1 & Hm & Hr1 & <-).
    rewrite length_fmap in Hn'.
    destruct (IH _ _ _ Hr1 He Hn') as (h' & l' & cs' & Hrun & Hr' & Hap & Hlen).
    exists h', l', cs'. cbn [run apply_ops]. rewrite Hm, Hys.
    do 3 (split; [done|]).
    pose proof (apply_op_length _ _ _ Hys Hop) as Hl1.
    rewrite !length_fmap in Hl1. rewrite Hlen, Hl1.
    rewrite adds_cons, removes_cons.
    destruct (is_add op), (is_remove op); lia.
Qed.

(** C9: a run of [push_back], [push_front], [pop_front] and [pop_back]
    from the empty list that never removes from an empty list returns
    normally; afterwards [size()] is the number of adds minus the number
    of removes (as a [std::size_t], and exactly so below 2^64 adds), and
    [getHead()] and [getTail()] return the first and the last value of
    the traversal.  In particular, for any three values [v0 v1 v2]
    (0, 1, 2 in the scenario): [push_back(v1); push_back(v2);
    push_front(v0)] gives [v0, v1, v2] with size 3, [pop_front] then
    gives [v1, v2], and [pop_back] then gives [v1], whose front and back
    are both [v1]. *)
Theorem ends_run_size_front_back :
  (forall ops : list (mutation T),
     ends_only ops = true -> never_underflows 0 ops = true ->
     exists h l xs,
       run alloc ops (∅, empty_list) = (Ok tt, (h, l)) /\
       to_vector (h, l) = Ok xs /\
       apply_ops ops [] = Some xs /\
       size_ (h, l) = wrap (Z.of_nat (adds ops) - Z.of_nat (removes ops)) /\
       (Z.of_nat (adds ops) < size_modulus ->
        size_ (h, l) = Z.of_nat (adds ops) - Z.of_nat (removes ops)) /\
       fst (getHead (h, l)) =
         match xs with
         | [] => Throw "List is empty: cannot access head."
         | x :: _ => Ok x
         end /\
       fst (getTail (h, l)) =
         match last xs with
         | None => Throw "List is empty: cannot access tail."
         | Some x => Ok x
         end) /\
  (forall v0 v1 v2 : T,
     exists c1 c2 c3 c4 c5,
       push_back alloc v1 (∅, empty_list) = (Ok tt, c1) /\
       push_back alloc v2 c1 = (Ok tt, c2) /\
       push_front alloc v0 c2 = (Ok tt, c3) /\
       to_vector c3 = Ok [v0; v1; v2] /\ size_ c3 = 3 /\
       pop_front c3 = (Ok tt, c4) /\
       to_vector c4 = Ok [v1; v2] /\
       pop_back c4 = (Ok tt, c5) /\
       to_vector c5 = Ok [v1] /\
       fst (getHead c5) = Ok v1 /\ fst (getTail c5) = Ok v1).
Proof.
  split.
  - intros ops He Hn.
    destruct (run_rep ops ∅ empty_list [] (rep_empty ∅) He Hn)
      as (h & l & cs & Hrun & Hrep & Hap & Hlen).
    exists h, l, cs.*2. cbn [length] in Hlen.
    pose proof Hrep as (_ & _ & _ & Hs).
    split; [done|]. split; [by apply to_vector_rep|]. split; [done|].
    unfold size_. cbn [snd]. rewrite Hs.
    replace (Z.of_nat (adds ops) - Z.of_nat (removes ops))
      with (Z.of_nat (length cs)) by lia.
    split; [done|]. split; [intros Hb; apply wrap_small; lia|].
    by rewrite (getHead_rep _ _ _ Hrep), (getTail_rep _ _ _ Hrep).
  - intros v0 v1 v2.
    destruct (push_back_rep _ _ _ v1 (rep_empty ∅)) as (h1 & l1 & E1 & R1 & _).
    destruct (push_back_rep _ _ _ v2 R1) as (h2 & l2 & E2 & R2 & _).
    destruct (push_front_rep _ _ _ v0 R2) as (h3 & l3 & E3 & R3 & _).
    cbn [app] in R2, R3.
    destruct (pop_front_rep _ _ _ _ _ R3) as (l4 & E4 & R4 & _).
    destruct (pop_back_rep _ _ [_] _ _ R4) as (h5 & l5 & E5 & R5 & _).
    exists (h1, l1), (h2, l2), (h3, l3), (delete (alloc h2) h3, l4), (h5, l5).
    do 3 (split; [done|]).
    split; [by rewrite (to_vector_rep _ _ _ R3)|].
    split; [destruct R3 as (_ & _ & _ & Hs3); unfold size_; cbn [snd];
            rewrite Hs3; reflexivity|].
    split; [done|]. split; [by rewrite (to_vector_rep _ _ _ R4)|].
    split; [done|]. split; [by rewrite (to_vector_rep _ _ _ R5)|].
    by rewrite (getHead_rep _ _ _ R5), (getTail_rep _ _ _ R5).
Qed.

(** The walk of [insert_before] towards [nullptr] stops at the last
    node. *)
Lemma find_pred_null fuel h p pre c x :
  lseg h p (pre ++ [(c, x)]) None -> (length pre < fuel)%nat ->
  find_pred fuel h p None = Ok (Some c).
Proof.
  revert fuel p. induction pre as [|[k z] pre IH]; intros fuel p Hl Hf;
    (destruct fuel as [|fuel]; [simpl in Hf; lia|]).
  - destruct Hl as [-> (r & Hc & Hr)]. simpl in Hr. subst r.
    cbn [find_pred]. rewrite Hc. cbn [next]. by rewrite decide_True.
  - destruct Hl as [-> (r & Hk & Hr)]. cbn [find_pred]. rewrite Hk.
    cbn [next].
    assert (Hrn : r ≠ None).
    { destruct pre as [|[k' z'] pre]; simpl in Hr; by destruct Hr as [-> _]. }
    rewrite decide_False by done. apply IH; [done|simpl in Hf; lia].
Qed.

(** C10: on a well-formed nonempty list, [insert_before(nullptr, v)]
    returns normally (no "Position not found."): the chain from [head]
    is the old one with a new node holding [v] linked after the old last
    node, [list_size] is incremented, and [tail] still is the address
    of the old last node, so that [getTail()] returns the old last
    element, as it did before the call. *)
Theorem insert_before_null_keeps_tail h l cs v :
  rep h l cs -> cs ≠ [] ->
  exists h' l' t y,
    insert_before alloc None v (h, l) = (Ok tt, (h', l')) /\
    last cs = Some (t, y) /\
    head l' = head l /\
    lseg h' (head l') (cs ++ [(alloc h, v)]) None /\
    h' !! t = Some (mkNode y (Some (alloc h))) /\
    h' !! alloc h = Some (mkNode v None) /\
    to_vector (h', l') = Ok (cs.*2 ++ [v]) /\
    list_size l' = incr (list_size l) /\
    tail l' = Some t /\ tail l = Some t /\
    fst (getTail (h', l')) = Ok y /\
    fst (getTail (h, l)) = Ok y.
Proof.
  intros Hrep Hne. pose proof Hrep as (Hl & Hnd & Ht & Hs).
  destruct cs as [|[t y] cs0 _] using rev_ind; [done|]. clear Hne.
  rewrite fst_snoc, last_snoc in Ht.
  pose proof (lseg_length _ _ _ _ Hl Hnd) as Hlen.
  rewrite length_app in Hlen. simpl in Hlen.
  pose proof (alloc_fresh h) as Hk. set (k := alloc h) in *.
  assert (Hkcs : k ∉ (cs0 ++ [(t, y)]).*1) by (by eapply lseg_fresh).
  apply lseg_app in Hl as Hsplit.
  destruct Hsplit as (r & Hpre & [-> (r' & Hty & Hr')]).
  simpl in Hr'. subst r'.
  assert (Htk : t ≠ k) by congruence.
  assert (Hhd : head l ≠ None).
  { destruct cs0 as [|[c z] cs0]; simpl in Hpre; [by rewrite Hpre|].
    by destruct Hpre as [-> _]. }
  assert (Htcs0 : t ∉ cs0.*1).
  { rewrite fst_snoc in Hnd. apply NoDup_app in Hnd as (_ & Hd & _).
    intros Hin. apply (Hd t Hin). left. }
  set (h' := <[t := mkNode y (Some k)]> (<[k := mkNode v None]> h)).
  set (l' := mkList (head l) (tail l) (incr (list_size l))).
  assert (Hcall : insert_before alloc None v (h, l) = (Ok tt, (h', l'))).
  { unfold insert_before. rewrite decide_False by (intros E; by apply Hhd).
    rewrite (find_pred_null _ _ _ cs0 t y); [|done|unfold steps; lia].
    rewrite Hty. fold k. cbn [data next]. rewrite Ht.
    rewrite decide_False by congruence. by rewrite <- Ht. }
  assert (Hchain : lseg h' (head l) ((cs0 ++ [(t, y)]) ++ [(k, v)]) None).
  { rewrite <- app_assoc. apply lseg_app. exists (Some t). split.
    - apply lseg_insert_ne; [done|]. apply lseg_insert_ne; [|done].
      intros Hin. apply Hkcs. rewrite fst_snoc. apply elem_of_app. by left.
    - eapply lseg_cons; [apply lookup_insert_eq|].
      eapply lseg_cons; [|done].
      unfold h'. rewrite lookup_insert_ne by done. apply lookup_insert_eq. }
  assert (Hnd' : NoDup ((cs0 ++ [(t, y)]) ++ [(k, v)]).*1).
  { rewrite fst_snoc. apply NoDup_app. split; [done|]. split.
    - by intros k' Hin ->%list_elem_of_singleton.
    - apply NoDup_singleton. }
  exists h', l', t, y. split; [done|]. split; [apply last_snoc|].
  split; [done|]. split; [done|].
  split; [apply lookup_insert_eq|].
  split; [unfold h'; rewrite lookup_insert_ne by done; apply lookup_insert_eq|].
  split.
  { unfold to_vector. cbn [fst snd head].
    rewrite (to_vector_loop_lseg _ _ _ _ _ Hchain).
    - by rewrite snd_snoc.
    - pose proof (lseg_length _ _ _ _ Hchain Hnd'). unfold steps. lia. }
  split; [done|]. split; [done|]. split; [done|].
  unfold getTail. cbn [tail l']. rewrite Ht, Hty.
  unfold h'. by rewrite lookup_insert_eq.
Qed.

(** C4: on the empty list, [pop_front], [pop_back], [getHead] and
    [getTail] each throw a "List is empty" error and leave the heap and
    the object (still [head == nullptr], [tail == nullptr],
    [list_size == 0]) as they were. *)
Theorem empty_list_calls_throw h :
  (exists w, pop_front (T := T) (h, empty_list) = (Throw w, (h, empty_list))
             /\ EmptyContainer w = true) /\
  (exists w, pop_back (T := T) (h, empty_list) = (Throw w, (h, empty_list))
             /\ EmptyContainer w = true) /\
  (exists w, getHead (T := T) (h, empty_list) = (Throw w, (h, empty_list))
             /\ EmptyContainer w = true) /\
  (exists w, getTail (T := T) (h, empty_list) = (Throw w, (h, empty_list))
             /\ EmptyContainer w = true) /\
  head empty_list = None /\ tail empty_list = None /\
  list_size empty_list = 0.
Proof. repeat split; by eexists. Qed.

Lemma framed_trans cs h h1 cs1 h2 cs2 :
  framed cs h h1 cs1 -> framed cs1 h1 h2 cs2 -> framed cs h h2 cs2.
Proof.
  intros [H1 H1'] [H2 H2']. split.
  - intros k Hk Hsome. rewrite <- (H1 k Hk Hsome). apply H2.
    + intros Hin. destruct (H1' k Hin) as [?|Hnone]; [done|].
      rewrite Hnone in Hsome. by destruct Hsome.
    + by rewrite (H1 k Hk Hsome).
  - intros k Hk. destruct (H2' k Hk) as [Hin|Hnone]; [by apply H1'|].
    destruct (decide (k ∈ cs.*1)) as [?|Hnin]; [by left|]. right.
    destruct (h !! k) as [n|] eqn:E; [|done]. exfalso.
    pose proof (H1 k Hnin) as Hsame. rewrite E in Hsame.
    rewrite Hsame in Hnone by eauto. done.
Qed.

(** A list that shares no node with the one a call works on is left as
    it was, and still shares no node with it. *)
Lemma rep_framed h h' l cs cb cb' :
  rep h l cs -> framed cb h h' cb' ->
  (forall k, k ∈ cs.*1 -> k ∉ cb.*1) ->
  rep h' l cs /\ (forall k, k ∈ cs.*1 -> k ∉ cb'.*1).
Proof.
  intros (Hl & Hnd & Ht & Hs) [Hf Hf'] Hdisj. split.
  - split; [|done]. eapply lseg_ext; [|done]. intros k Hk.
    apply Hf; [by apply Hdisj|]. by eapply lseg_is_Some.
  - intros k Hk Hin. destruct (Hf' k Hin) as [?|Hnone]; [by eapply Hdisj|].
    destruct (lseg_is_Some _ _ _ _ _ Hl Hk) as [n Hn]. congruence.
Qed.

Lemma push_back_all_rep vec : forall h l cs,
  rep h l cs ->
  exists h' l' cs',
    push_back_all alloc vec (h, l) = (Ok tt, (h', l')) /\
    rep h' l' cs' /\ cs'.*2 = cs.*2 ++ vec /\ framed cs h h' cs'.
Proof.
  induction vec as [|v vec IH]; intros h l cs Hrep.
  - exists h, l, cs. split; [done|]. split; [done|].
    split; [by rewrite app_nil_r|apply framed_refl].
  - destruct (push_back_rep _ _ _ v Hrep) as (h1 & l1 & E1 & R1 & F1).
    destruct (IH _ _ _ R1) as (h' & l' & cs' & E & R & Hv & F).
    exists h', l', cs'. cbn [push_back_all]. rewrite E1.
    split; [done|]. split; [done|]. split.
    + rewrite Hv, snd_snoc, <- app_assoc. done.
    + by eapply framed_trans.
Qed.

(** C6: for every well-formed list (the empty one too), [to_vector]
    returns its elements in traversal order, and assigning that vector
    to a list (any well-formed list of the same heap, the source itself
    included) makes it a well-formed list with the same [size()] and the
    same elements in the same order: [to_vector] of the result is the
    same vector. *)
Theorem vector_round_trip h l cs d ds :
  rep h l cs -> rep h d ds ->
  exists vec h' d' cs',
    to_vector (h, l) = Ok vec /\ vec = cs.*2 /\
    assign_vector alloc vec (h, d) = (Ok tt, (h', d')) /\
    rep h' d' cs' /\
    to_vector (h', d') = Ok vec /\
    size_ (h', d') = size_ (h, l).
Proof.
  intros Hl Hd.
  destruct (clear_rep _ _ _ Hd) as (h0 & E0 & R0 & _).
  destruct (push_back_all_rep cs.*2 _ _ _ R0) as (h' & d' & cs' & E & R & Hv & _).
  cbn [fmap list_fmap app] in Hv.
  exists cs.*2, h', d', cs'. split; [by apply to_vector_rep|]. split; [done|].
  split; [unfold assign_vector; by rewrite E0|]. split; [done|].
  split; [by rewrite (to_vector_rep _ _ _ R), Hv|].
  destruct R as (_ & _ & _ & Hs'). destruct Hl as (_ & _ & _ & Hs).
  unfold size_. cbn [snd]. rewrite Hs', Hs.
  by rewrite <- (length_fmap snd cs'), Hv, length_fmap.
Qed.

(** *** What [insert_before], [erase_before] and [to_array_pad] do on
    well-formed lists *)

(** Following [next] from the head of a chain reaches its nodes in
    order. *)
Lemma nth_next_lseg h p pre k x post q :
  lseg h p (pre ++ (k, x) :: post) q ->
  nth_next h p (length pre) = Some k.
Proof.
  revert p. induction pre as [|[c z] pre IH]; intros p.
  - by intros [-> _].
  - intros [-> (r & Hc & Hr)]. cbn [length nth_next app]. rewrite Hc.
    by apply IH.
Qed.

(** On well-formed lists of fewer than 2^64 nodes the structural
    invariants hold, in the words of the specification. *)
Lemma rep_structural_invariants h l cs :
  rep h l cs -> Z.of_nat (length cs) < size_modulus ->
  structural_invariants (h, l) = true.
Proof.
  intros (Hl & Hnd & Ht & Hs) Hb. unfold structural_invariants.
  rewrite wrap_small in Hs by lia.
  destruct cs as [|[t y] cs _] using rev_ind.
  - simpl in *. rewrite Hl, Ht, Hs. done.
  - rewrite fst_snoc, last_snoc in Ht. rewrite length_app in Hs. simpl in Hs.
    assert (Hhd : head l ≠ None).
    { destruct cs as [|[c z] cs]; simpl in Hl; by destruct Hl as [-> _]. }
    pose proof (nth_next_lseg _ _ _ _ _ _ _ Hl) as Hn.
    apply lseg_app in Hl as (r & _ & [-> (r' & Hty & Hr')]).
    simpl in Hr'. subst r'.
    destruct (head l) as [hd|] eqn:Ehd; [|done].
    rewrite Ht, Hty.
    replace (Z.to_nat (list_size l - 1)) with (length cs) by lia.
    rewrite Hn. cbn [next].
    rewrite !bool_decide_eq_true_2; try done.
    split; [lia|done].
Qed.

(** [erase_before] throws, and changes nothing, when called with the
    head node or on an empty list. *)
Lemma erase_before_head_throws (h : gmap loc (Node T)) l pos :
  pos = head l \/ head l = None ->
  exists w, erase_before pos (h, l) = (Throw w, (h, l)) /\
            InvalidOperation w = true.
Proof.
  intros Hpos. unfold erase_before. eexists.
  destruct (decide (pos = head l)); [done|].
  destruct Hpos as [?| ->]; done.
Qed.

(** [erase_before] called with the second node of any well-formed list
    returns normally and changes nothing. *)
Lemma erase_before_second_noop h l k0 x0 k1 x1 cs :
  rep h l ((k0, x0) :: (k1, x1) :: cs) ->
  erase_before (Some k1) (h, l) = (Ok tt, (h, l)).
Proof.
  intros ([Hhd (r & Hk0 & [-> _])] & [Hnin _]%NoDup_cons & _).
  unfold erase_before. rewrite Hhd.
  rewrite decide_False by (intros [= ->]; apply Hnin; left).
  unfold steps. cbn [erase_walk]. rewrite Hk0. cbn [next].
  by rewrite decide_True.
Qed.

(** The walk of [erase_before] stops at the node before [pos], with
    [prev] one node behind. *)
Lemma erase_walk_lseg h c xc t pre : forall fuel prev p,
  lseg h p (pre ++ [(c, xc)]) (Some t) ->
  t ∉ (pre ++ [(c, xc)]).*1 ->
  (length pre < fuel)%nat ->
  erase_walk fuel h prev p (Some t)
  = Ok (match last pre.*1 with Some k => Some k | None => prev end, c).
Proof.
  induction pre as [|[k z] pre IH]; intros fuel prev p Hl Ht Hf;
    (destruct fuel as [|fuel]; [simpl in Hf; lia|]).
  - destruct Hl as [-> (r & Hc & Hr)]. simpl in Hr. subst r.
    cbn [erase_walk]. rewrite Hc. cbn [next]. by rewrite decide_True.
  - destruct Hl as [-> (r & Hk & Hr)]. cbn [erase_walk]. rewrite Hk.
    cbn [next].
    rewrite <- app_comm_cons, fmap_cons in Ht. cbn [fst] in Ht.
    apply not_elem_of_cons in Ht as [Htk Ht].
    assert (Hnext : exists c' n', r = Some c' /\ h !! c' = Some n' /\
                                  next n' ≠ None /\ c' ≠ t).
    { assert (Hc't : forall c', c' ∈ (pre ++ [(c, xc)]).*1 -> c' ≠ t).
      { by intros c' Hin ->. }
      destruct pre as [|[k' z'] pre].
      - destruct Hr as [-> (r' & Hc & Hr')]. simpl in Hr'. subst r'.
        exists c, (mkNode xc (Some t)). repeat split; try done.
        apply Hc't. left.
      - destruct Hr as [-> (r' & Hk' & Hr')].
        exists k', (mkNode z' r'). repeat split; try done.
        + cbn [next]. destruct pre as [|[k2 z2] pre]; simpl in Hr';
            by destruct Hr' as [-> _].
        + apply Hc't. left. }
    destruct Hnext as (c' & n' & -> & Hc' & Hn' & Hc't).
    rewrite decide_False by congruence. rewrite Hc'.
    destruct (next n') as [?|] eqn:En'; [|done].
    rewrite (IH fuel (Some k) (Some c')); [|done|done|simpl in Hf; lia].
    f_equal. f_equal. rewrite fmap_cons. cbn [fst].
    destruct pre as [|[k' z'] pre]; [done|]. rewrite fmap_cons.
    cbn [fst]. rewrite last_cons_cons.
    destruct (last (k' :: pre.*1)) eqn:E; [done|].
    by apply last_None in E.
Qed.

(** [erase_before] called with a node at index 2 or more of a
    well-formed list removes the node before it. *)
Lemma erase_before_rep h l pre pv xp c xc t y post :
  rep h l (pre ++ (pv, xp) :: (c, xc) :: (t, y) :: post) ->
  exists h' l',
    erase_before (Some t) (h, l) = (Ok tt, (h', l')) /\
    rep h' l' (pre ++ (pv, xp) :: (t, y) :: post) /\
    list_size l' = decr (list_size l).
Proof.
  intros (Hl & Hnd & Ht & Hs).
  pose proof (lseg_length _ _ _ _ Hl Hnd) as Hlen.
  rewrite length_app in Hlen. cbn [length] in Hlen.
  rewrite fmap_app, !fmap_cons in Hnd, Ht. cbn [fst] in Hnd, Ht.
  apply NoDup_app in Hnd as (Hnd1 & Hd & Hnd2).
  apply NoDup_cons in Hnd2 as (Hpv & Hnd2).
  apply NoDup_cons in Hnd2 as (Hc & Hnd2).
  apply not_elem_of_cons in Hpv as [Hpvc Hpv].
  apply not_elem_of_cons in Hpv as [Hpvt Hpvpost].
  apply not_elem_of_cons in Hc as [Hct Hcpost].
  apply lseg_app in Hl as (r & Hpre & Hrest).
  destruct Hrest as [-> (r1 & Hhpv & [-> (r2 & Hhc & Hrest)])].
  pose proof Hrest as [-> _].
  assert (Hwalk : lseg h (head l) ((pre ++ [(pv, xp)]) ++ [(c, xc)]) (Some t)).
  { apply lseg_app. exists (Some c). split; [|by eapply lseg_cons].
    apply lseg_app. exists (Some pv). split; [done|]. by eapply lseg_cons. }
  assert (Htnot : t ∉ ((pre ++ [(pv, xp)]) ++ [(c, xc)]).*1).
  { rewrite !fst_snoc. rewrite !elem_of_app, !list_elem_of_singleton.
    intros [[Hin| ->]| ->]; try done.
    apply (Hd t Hin). right. right. left. }
  assert (Hhd : exists hd, head l = Some hd /\ hd ≠ t).
  { destruct pre as [|[k z] pre]; simpl in Hpre.
    - exists pv. by rewrite Hpre.
    - destruct Hpre as [-> _]. exists k. split; [done|]. intros ->.
      apply (Hd t); [left|]. right. right. left. }
  destruct Hhd as (hd & Hhd & Hhdt).
  unfold erase_before. rewrite Hhd.
  rewrite decide_False by congruence. rewrite <- Hhd.
  rewrite (erase_walk_lseg _ _ _ _ _ _ _ _ Hwalk Htnot);
    [|rewrite length_app; unfold steps; simpl; lia].
  rewrite fst_snoc, last_snoc, Hhpv, Hhc. cbn [data next].
  set (h2 := <[pv := mkNode xp (Some t)]> (<[c := mkNode xc None]> h)).
  assert (Hrel : forall k, release h2 (Some c) !! k
                  = if decide (k ∈ [c]) then None else h2 !! k).
  { intros k. apply (release_lookup h2 (Some c) [(c, xc)]).
    - eapply lseg_cons; [|done]. unfold h2.
      rewrite lookup_insert_ne by done. apply lookup_insert_eq.
    - apply NoDup_singleton. }
  assert (Hout : forall k, k ≠ c -> k ≠ pv -> release h2 (Some c) !! k = h !! k).
  { intros k Hkc Hkpv. rewrite Hrel.
    rewrite decide_False by (by intros ->%list_elem_of_singleton).
    unfold h2. by rewrite !lookup_insert_ne. }
  eexists _, _. split; [done|]. split; [|done].
  split; [|split; [|split]]; cbn [head tail list_size].
  - apply lseg_app. exists (Some pv). split.
    + eapply lseg_ext; [|exact Hpre]. intros k Hk. apply Hout.
      * intros ->. apply (Hd c Hk). right. left.
      * intros ->. apply (Hd pv Hk). left.
    + eapply lseg_cons.
      * rewrite Hrel.
        rewrite decide_False by (by intros ->%list_elem_of_singleton).
        apply lookup_insert_eq.
      * eapply lseg_ext; [|exact Hrest]. intros k Hk. rewrite fmap_cons in Hk.
        cbn [fst] in Hk. apply Hout.
        -- intros ->. apply elem_of_cons in Hk as [?|?]; done.
        -- intros ->. apply elem_of_cons in Hk as [?|?]; done.
  - rewrite fmap_app, !fmap_cons. cbn [fst]. apply NoDup_app.
    split; [done|]. split.
    + intros k Hk Hin. apply (Hd k Hk).
      apply elem_of_cons in Hin as [->|Hin]; [left|]. right. by right.
    + apply NoDup_cons. split; [|done]. rewrite not_elem_of_cons. done.
  - rewrite Ht, fmap_app, !fmap_cons. cbn [fst].
    rewrite !last_app. by rewrite !last_cons_cons.
  - rewrite Hs, decr_wrap, !length_app. cbn [length]. f_equal. lia.
Qed.

(** The loop of [to_array_pad] on a chain that fits. *)
Lemma to_array_pad_loop_lseg h p cs N : forall fuel i arr,
  lseg h p cs None -> (i + length cs <= N)%nat -> (length cs < fuel)%nat ->
  exists arr', to_array_pad_loop fuel h p N i arr
               = Ok ((i + length cs)%nat, arr').
Proof.
  revert p. induction cs as [|[c x] cs IH]; intros p fuel i arr Hl Hfit Hf;
    (destruct fuel as [|fuel]; [simpl in Hf; lia|]).
  - simpl in Hl. subst p. exists arr. cbn. by rewrite Nat.add_0_r.
  - destruct Hl as [-> (r & Hc & Hr)]. cbn [to_array_pad_loop]. rewrite Hc.
    cbn [length] in Hfit. rewrite decide_False by lia. cbn [next data].
    destruct (IH r fuel (S i) (<[i := x]> arr)) as [arr' E];
      [done|lia|simpl in Hf; lia|].
    exists arr'. rewrite E. cbn [length]. do 2 f_equal. lia.
Qed.

(** [to_array_pad<N>()] on any well-formed list shorter than [N]
    returns [N] default values. *)
Lemma to_array_pad_short T_default h l cs N arr :
  rep h l cs -> (length cs < N)%nat ->
  to_array_pad T_default N arr (h, l) = Ok (replicate N T_default).
Proof.
  intros (Hl & Hnd & _) Hlt. unfold to_array_pad.
  rewrite decide_False by lia. cbn [fst snd].
  destruct (to_array_pad_loop_lseg h (head l) cs N (steps h) 0 arr)
    as [arr' E]; [done|lia| |].
  { pose proof (lseg_length _ _ _ _ Hl Hnd). unfold steps. lia. }
  rewrite E. cbn [Nat.add]. by rewrite decide_True.
Qed.

(** *** Two objects *)

Implicit Types (w : machine T) (a b : string).

Lemma call_eq {A} this (m : M A) w l r h' l' :
  objs w !! this = Some l -> m (mem w, l) = (r, (h', l')) ->
  call this m w = (r, mkMachine h' (<[this := l']> (objs w))).
Proof. intros Hl Hm. unfold call. by rewrite Hl, Hm. Qed.

Lemma observe_eq {A} this (f : gmap loc (Node T) * SinglyLinkedList -> A)
    w l :
  objs w !! this = Some l -> observe this f w = Some (f (mem w, l)).
Proof. intros Hl. unfold observe. by rewrite Hl. Qed.

Lemma call_mutate_inv a b la cs w op :
  a ≠ b -> pair_inv a b la cs w ->
  pair_inv a b la cs (snd (call b (mutate alloc op) w)).
Proof.
  intros Hab (Ha & Hra & lb & cb & Hb & Hrb & Hd).
  destruct (mutate_rep op _ _ _ Hrb) as (h' & l' & cb' & Hs & Hr' & Hf & _).
  destruct (mutate alloc op (mem w, lb)) as [r c'] eqn:E.
  simpl in Hs. subst c'.
  rewrite (call_eq _ _ _ _ _ _ _ Hb E). cbn [snd].
  destruct (rep_framed _ _ _ _ _ _ Hra Hf Hd) as [Hra' Hd'].
  split; [cbn; by rewrite lookup_insert_ne|]. split; [done|].
  exists l', cb'. split; [cbn; apply lookup_insert_eq|]. done.
Qed.

Lemma run_caught_inv a b la cs ops : forall w,
  a ≠ b -> pair_inv a b la cs w ->
  pair_inv a b la cs (run_caught alloc b ops w).
Proof.
  induction ops as [|op ops IH]; intros w Hab Hinv; [done|].
  cbn. apply IH; [done|]. by apply call_mutate_inv.
Qed.

Lemma copy_loop_spec a b la cs suffix : forall fuel w cur lb cb,
  a ≠ b ->
  objs w !! a = Some la -> rep (mem w) la cs ->
  objs w !! b = Some lb -> rep (mem w) lb cb ->
  (forall k, k ∈ cs.*1 -> k ∉ cb.*1) ->
  lseg (mem w) cur suffix None ->
  (forall k, k ∈ suffix.*1 -> k ∈ cs.*1) ->
  (length suffix < fuel)%nat ->
  exists w' lb' cb',
    copy_loop alloc fuel b cur w = (Ok tt, w') /\
    objs w' !! a = Some la /\ rep (mem w') la cs /\
    objs w' !! b = Some lb' /\ rep (mem w') lb' cb' /\
    cb'.*2 = cb.*2 ++ suffix.*2 /\
    (forall k, k ∈ cs.*1 -> k ∉ cb'.*1).
Proof.
  induction suffix as [|[c x] suffix IH];
    intros fuel w cur lb cb Hab Ha Hra Hb Hrb Hd Hcur Hsub Hfuel;
    (destruct fuel as [|fuel]; [simpl in Hfuel; lia|]).
  - simpl in Hcur. subst cur. exists w, lb, cb.
    split; [done|]. do 4 (split; [done|]). split; [|done].
    by rewrite app_nil_r.
  - destruct Hcur as [-> (r & Hc & Hr)]. cbn [copy_loop]. rewrite Hc.
    cbn [data].
    destruct (push_back_rep _ _ _ x Hrb) as (h1 & l1 & E1 & R1 & F1).
    rewrite (call_eq _ _ _ _ _ _ _ Hb E1).
    destruct (rep_framed _ _ _ _ _ _ Hra F1 Hd) as [Hra1 Hd1].
    assert (Hinc : c ∈ cs.*1) by (apply Hsub; left).
    assert (Hsame : forall k, k ∈ cs.*1 -> h1 !! k = mem w !! k).
    { intros k Hk. destruct F1 as [F1 _]. apply F1; [by apply Hd|].
      destruct Hra as (Hl & _). exact (lseg_is_Some _ _ _ _ _ Hl Hk). }
    cbn [mem]. rewrite (Hsame c Hinc), Hc. cbn [next].
    set (w1 := mkMachine h1 (<[b := l1]> (objs w))).
    destruct (IH fuel w1 r l1 (cb ++ [(alloc (mem w), x)]))
      as (w' & lb' & cb' & E & Ha' & Hra' & Hb' & Hrb' & Hv & Hd'); try done.
    + cbn. by rewrite lookup_insert_ne.
    + cbn. apply lookup_insert_eq.
    + cbn. eapply lseg_ext; [|exact Hr]. intros k Hk. apply Hsame, Hsub.
      by right.
    + intros k Hk. apply Hsub. by right.
    + simpl in Hfuel. lia.
    + exists w', lb', cb'. split; [done|]. do 4 (split; [done|]).
      split; [|done]. rewrite Hv, snd_snoc, <- app_assoc. done.
Qed.

(** Move assignment of an object to itself does nothing
    ([if (this != &other)]). *)
Lemma move_assign_self w a : move_assign a a w = (Ok tt, w).
Proof. unfold move_assign. by rewrite decide_True. Qed.

(** C7: moving from a well-formed list [a] into another object [b],
    by the move constructor or by move assignment (then [b] is a
    well-formed list on nodes of its own), leaves [a] with
    [head == nullptr], [tail == nullptr] and [list_size == 0], and [b]
    with the very nodes [a] had, in the same order: no node is added to
    the heap, and the only nodes that leave it are those [b] had before
    a move assignment. *)
Theorem move_empties_source w a b la cs :
  objs w !! a = Some la -> rep (mem w) la cs -> a ≠ b ->
  (exists w1 lb,
     move_construct b a w = (Ok tt, w1) /\
     objs w1 !! a = Some empty_list /\
     objs w1 !! b = Some lb /\ rep (mem w1) lb cs /\
     mem w1 = mem w /\
     observe b to_vector w1 = Some (Ok cs.*2) /\
     observe a size_ w1 = Some 0) /\
  (forall lb ds,
     objs w !! b = Some lb -> rep (mem w) lb ds ->
     (forall k, k ∈ cs.*1 -> k ∉ ds.*1) ->
     exists w2 lb',
       move_assign b a w = (Ok tt, w2) /\
       objs w2 !! a = Some empty_list /\
       objs w2 !! b = Some lb' /\ rep (mem w2) lb' cs /\
       (forall k, mem w2 !! k
                  = if decide (k ∈ ds.*1) then None else mem w !! k) /\
       observe b to_vector w2 = Some (Ok cs.*2) /\
       observe a size_ w2 = Some 0).
Proof.
  intros Ha Hra Hab.
  set (lb1 := mkList (head la) (tail la) (list_size la)).
  assert (Hfields : forall h, rep h la cs -> rep h lb1 cs) by done.
  split.
  - unfold move_construct. rewrite Ha. eexists _, lb1.
    split; [done|]. cbn [objs mem].
    assert (Hb1 : <[a := mkList None None 0]> (<[b := lb1]> (objs w)) !! b
                  = Some lb1).
    { rewrite lookup_insert_ne by done. apply lookup_insert_eq. }
    split; [apply lookup_insert_eq|]. split; [done|].
    split; [by apply Hfields|]. split; [done|]. split.
    + erewrite observe_eq by exact Hb1. cbn [mem].
      by rewrite (to_vector_rep _ _ cs) by (by apply Hfields).
    + by erewrite observe_eq by apply lookup_insert_eq.
  - intros lb ds Hb Hrb Hd. unfold move_assign.
    rewrite decide_False by done. rewrite Hb, Ha. eexists _, lb1.
    split; [done|]. cbn [objs mem].
    assert (Hb1 : <[a := mkList None None 0]> (<[b := lb1]> (objs w)) !! b
                  = Some lb1).
    { rewrite lookup_insert_ne by done. apply lookup_insert_eq. }
    assert (Hrel : forall k, release (mem w) (head lb) !! k
                    = if decide (k ∈ ds.*1) then None else mem w !! k).
    { intros k. destruct Hrb as (Hl & Hnd & _). by apply release_lookup. }
    assert (Hr2 : rep (release (mem w) (head lb)) lb1 cs).
    { apply Hfields. destruct Hra as (Hl & Hrest). split; [|done].
      eapply lseg_ext; [|done]. intros k Hk. rewrite Hrel.
      rewrite decide_False; [done|]. by apply Hd. }
    split; [apply lookup_insert_eq|]. split; [done|]. split; [done|].
    split; [done|]. split.
    + erewrite observe_eq by exact Hb1. cbn [mem].
      by rewrite (to_vector_rep _ _ cs).
    + by erewrite observe_eq by apply lookup_insert_eq.
Qed.

(** C8: the copy constructor, run on a well-formed list [a] to make
    another object [b], returns normally; [b] then is a well-formed
    list with [a]'s size and [a]'s elements in the same order, on nodes
    none of which is a node of [a]; and after any run of [push_back],
    [push_front], [pop_front], [pop_back] and [clear] on [b] (calls that
    throw included), [a] has the size and the elements it had. *)
Theorem copy_is_independent w a b la cs :
  objs w !! a = Some la -> rep (mem w) la cs -> a ≠ b ->
  exists w1 lb cb,
    copy_construct alloc b a w = (Ok tt, w1) /\
    objs w1 !! b = Some lb /\ rep (mem w1) lb cb /\
    cb.*2 = cs.*2 /\ list_size lb = list_size la /\
    (forall k, k ∈ cb.*1 -> k ∉ cs.*1) /\
    observe b to_vector w1 = Some (Ok cs.*2) /\
    observe b size_ w1 = observe a size_ w /\
    observe a to_vector w = Some (Ok cs.*2) /\
    forall ops,
      observe a to_vector (run_caught alloc b ops w1) = Some (Ok cs.*2) /\
      observe a size_ (run_caught alloc b ops w1) = observe a size_ w.
Proof.
  intros Ha Hra Hab. unfold copy_construct.
  rewrite decide_False by done.
  set (w0 := mkMachine (mem w) (<[b := empty_list]> (objs w))).
  assert (Hb0 : objs w0 !! b = Some empty_list) by apply lookup_insert_eq.
  assert (Hclear : clear (mem w0, empty_list) = (Ok tt, (mem w, empty_list))).
  { unfold clear. cbn. by rewrite release_null. }
  rewrite (call_eq _ _ _ _ _ _ _ Hb0 Hclear).
  set (w1 := mkMachine (mem w) (<[b := empty_list]> (objs w0))).
  assert (Ha1 : objs w1 !! a = Some la).
  { cbn. by rewrite !lookup_insert_ne. }
  rewrite Ha1.
  pose proof Hra as (Hl & Hnd & _ & Hs).
  destruct (copy_loop_spec a b la cs cs (steps (mem w1)) w1 (head la)
              empty_list [])
    as (w' & lb' & cb' & E & Ha' & Hra' & Hb' & Hrb' & Hv & Hd');
    try done.
  { apply lookup_insert_eq. }
  { apply rep_empty. }
  { intros k _ Hk. by apply elem_of_nil in Hk. }
  { pose proof (lseg_length _ _ _ _ Hl Hnd). unfold steps. cbn. lia. }
  cbn [fmap list_fmap app] in Hv.
  assert (Hsz : list_size lb' = list_size la).
  { destruct Hrb' as (_ & _ & _ & Hs'). rewrite Hs', Hs.
    by rewrite <- (length_fmap snd cb'), Hv, length_fmap. }
  exists w', lb', cb'. split; [done|]. do 4 (split; [done|]).
  split; [intros k Hk Hin; by apply (Hd' k Hin)|].
  split; [by rewrite (observe_eq _ _ _ _ Hb'), (to_vector_rep _ _ _ Hrb'), Hv|].
  split; [rewrite (observe_eq _ _ _ _ Hb'), (observe_eq _ _ _ _ Ha);
          unfold size_; cbn [snd]; by rewrite Hsz|].
  split; [by rewrite (observe_eq _ _ _ _ Ha), (to_vector_rep _ _ _ Hra)|].
  intros ops.
  assert (Hinv : pair_inv a b la cs w') by (split; [done|]; eauto 10).
  destruct (run_caught_inv a b la cs ops w' Hab Hinv) as (Ha2 & Hra2 & _).
  rewrite !(observe_eq _ _ _ _ Ha2), (observe_eq _ _ _ _ Ha).
  by rewrite (to_vector_rep _ _ _ Hra2).
Qed.

End Operations.

Section Equality.

Context {T : Type} `{EqDecision T}.
Implicit Types (h : gmap loc (Node T)) (cs ds : list (loc * T)).

Lemma elementwise_equal_eq (xs ys : list T) :
  elementwise_equal xs ys = true <-> xs = ys.
Proof.
  revert ys. induction xs as [|x xs IH]; intros [|y ys]; simpl; try done.
  rewrite andb_true_iff, bool_decide_eq_true, IH. split.
  - by intros [-> ->].
  - by intros [= -> ->].
Qed.

Lemma elementwise_equal_sym (xs ys : list T) :
  elementwise_equal xs ys = elementwise_equal ys xs.
Proof.
  destruct (elementwise_equal xs ys) eqn:E1, (elementwise_equal ys xs) eqn:E2;
    try done.
  - apply elementwise_equal_eq in E1 as ->.
    assert (elementwise_equal ys ys = true) by (by apply elementwise_equal_eq).
    congruence.
  - apply elementwise_equal_eq in E2 as ->.
    assert (elementwise_equal xs xs = true) by (by apply elementwise_equal_eq).
    congruence.
Qed.

Lemma equality_rep h a b cs ds :
  rep h a cs -> rep h b ds ->
  equality h a b = Ok (bool_decide (cs.*2 = ds.*2)).
Proof.
  intros Ha Hb. unfold equality.
  rewrite (to_vector_rep _ _ _ Ha), (to_vector_rep _ _ _ Hb). f_equal.
  destruct Ha as (_ & _ & _ & Hsa), Hb as (_ & _ & _ & Hsb).
  unfold size_. cbn [snd]. rewrite Hsa, Hsb.
  destruct (decide (cs.*2 = ds.*2)) as [Heq|Hne].
  - rewrite (bool_decide_eq_true_2 (cs.*2 = ds.*2)) by done.
    apply andb_true_iff. split; [|by apply elementwise_equal_eq].
    apply bool_decide_eq_true.
    by rewrite <- (length_fmap snd cs), Heq, length_fmap.
  - rewrite (bool_decide_eq_false_2 (cs.*2 = ds.*2)) by done.
    apply andb_false_iff. right.
    destruct (elementwise_equal cs.*2 ds.*2) eqn:E; [|done].
    by apply elementwise_equal_eq in E.
Qed.

(** C5: for well-formed lists the comparison returns, and it returns
    [true] iff the two lists have the same size and the same elements in
    traversal order; a list is equal to itself; comparing [a] with [b]
    gives what comparing [b] with [a] gives; a list whose elements are
    [x, y, z] with [x ≠ z] differs from one whose elements are
    [z, y, x] (so [1,2,3] ≠ [3,2,1]), and a list whose elements are
    [x, y] differs from one whose elements are [x, y, z]
    (so [1,2] ≠ [1,2,3]). *)
Theorem equality_spec h a b cs ds :
  rep h a cs -> rep h b ds ->
  (exists r, equality h a b = Ok r) /\
  (equality h a b = Ok true <->
     size_ (h, a) = size_ (h, b) /\ cs.*2 = ds.*2) /\
  equality h a a = Ok true /\
  equality h a b = equality h b a /\
  (forall x y z, x ≠ z -> cs.*2 = [x; y; z] -> ds.*2 = [z; y; x] ->
     equality h a b = Ok false) /\
  (forall x y z, cs.*2 = [x; y] -> ds.*2 = [x; y; z] ->
     equality h a b = Ok false).
Proof.
  intros Ha Hb. rewrite (equality_rep _ _ _ _ _ Ha Hb).
  rewrite (equality_rep _ _ _ _ _ Hb Ha), (equality_rep _ _ _ _ _ Ha Ha).
  split; [by eexists|]. split; [|split; [|split; [|split]]].
  - split.
    + intros [= Heq%bool_decide_eq_true]. split; [|done].
      destruct Ha as (_ & _ & _ & Hsa), Hb as (_ & _ & _ & Hsb).
      unfold size_. cbn [snd]. rewrite Hsa, Hsb.
      by rewrite <- (length_fmap snd cs), Heq, length_fmap.
    + intros [_ Heq]. f_equal. by apply bool_decide_eq_true.
  - f_equal. by apply bool_decide_eq_true.
  - f_equal. apply bool_decide_ext. split; by intros ->.
  - intros x y z Hxz -> ->. f_equal. apply bool_decide_eq_false.
    by intros [= ->].
  - intros x y z -> ->. f_equal. by apply bool_decide_eq_false.
Qed.

End Equality.

(** ** Beyond the two ends: positions, conversions, iterators *)

Section Positions.

Context {T : Type}.
Variable alloc : gmap loc (Node T) -> loc.
Hypothesis alloc_fresh : forall h : gmap loc (Node T), h !! alloc h = None.

Implicit Types (h : gmap loc (Node T)) (p q pos : ptr).
Implicit Types (cs pre post : list (loc * T)) (l : SinglyLinkedList) (v : T).

(** The first node of a nonempty chain is where its pointer points. *)
Lemma lseg_head_in h p cs q :
  lseg h p cs q -> cs ≠ [] -> exists k, p = Some k /\ k ∈ cs.*1.
Proof.
  destruct cs as [|[k x] cs]; [done|]. intros [-> _] _.
  exists k. split; [done|]. rewrite fmap_cons. left.
Qed.

(** The walk of [insert_before] stops at the node before [pos]. *)
Lemma find_pred_lseg h pre c x t : forall fuel p,
  lseg h p (pre ++ [(c, x)]) (Some t) ->
  t ∉ (pre ++ [(c, x)]).*1 ->
  (length pre < fuel)%nat ->
  find_pred fuel h p (Some t) = Ok (Some c).
Proof.
  induction pre as [|[k z] pre IH]; intros fuel p Hl Ht Hf;
    (destruct fuel as [|fuel]; [simpl in Hf; lia|]).
  - destruct Hl as [-> (r & Hc & Hr)]. simpl in Hr. subst r.
    cbn [find_pred]. rewrite Hc. cbn [next]. by rewrite decide_True.
  - destruct Hl as [-> (r & Hk & Hr)]. cbn [find_pred]. rewrite Hk.
    cbn [next].
    rewrite <- app_comm_cons, fmap_cons in Ht. cbn [fst] in Ht.
    apply not_elem_of_cons in Ht as [Htk Ht].
    destruct (lseg_head_in _ _ _ _ Hr) as (k' & -> & Hk');
      [by destruct pre|].
    rewrite decide_False by (intros [= ->]; done).
    apply IH; [done|done|simpl in Hf; lia].
Qed.

(** The walk of [insert_before] falls off the end when no node's
    [next] is [pos]. *)
Lemma find_pred_absent h cs pos : forall fuel p,
  lseg h p cs None -> pos ≠ None ->
  (forall k, k ∈ cs.*1 -> pos ≠ Some k) ->
  (length cs < fuel)%nat ->
  find_pred fuel h p pos = Ok None.
Proof.
  induction cs as [|[k z] cs IH]; intros fuel p Hl Hpos Hnot Hf;
    (destruct fuel as [|fuel]; [simpl in Hf; lia|]).
  - simpl in Hl. by subst p.
  - destruct Hl as [-> (r & Hk & Hr)]. cbn [find_pred]. rewrite Hk.
    cbn [next].
    assert (Hr' : r ≠ pos).
    { destruct cs as [|[k' z'] cs]; simpl in Hr.
      - by subst r.
      - destruct Hr as [-> _]. intros <-. apply (Hnot k'); [|done].
        rewrite !fmap_cons. right. left. }
    rewrite decide_False by done. apply IH; [done|done| |simpl in Hf; lia].
    intros k' Hk'. apply Hnot. rewrite fmap_cons. by right.
Qed.

(** What [insert_before] returns when [pos] is a node past the head. *)
Lemma insert_before_interior_eq h l pre c x t y post v :
  rep h l (pre ++ (c, x) :: (t, y) :: post) ->
  insert_before alloc (Some t) v (h, l)
  = (Ok tt, (<[c := mkNode x (Some (alloc h))]>
               (<[alloc h := mkNode v (Some t)]> h),
             mkList (head l) (tail l) (incr (list_size l)))).
Proof.
  intros (Hl & Hnd & Ht & Hs).
  pose proof (lseg_length _ _ _ _ Hl Hnd) as Hlen.
  rewrite length_app in Hlen. cbn [length] in Hlen.
  pose proof (alloc_fresh h) as Hk.
  assert (Hkcs : alloc h ∉ (pre ++ (c, x) :: (t, y) :: post).*1)
    by (by eapply lseg_fresh).
  rewrite fmap_app, !fmap_cons in Hnd, Ht, Hkcs. cbn [fst] in Hnd, Ht, Hkcs.
  apply NoDup_app in Hnd as (Hnd1 & Hd & Hnd2).
  apply NoDup_cons in Hnd2 as (Hc & Hnd2).
  apply not_elem_of_cons in Hc as [Hct Hcpost].
  apply lseg_app in Hl as (r & Hpre & [-> (r1 & Hhc & Hrest)]).
  pose proof Hrest as [-> _].
  assert (Hwalk : lseg h (head l) (pre ++ [(c, x)]) (Some t)).
  { apply lseg_app. exists (Some c). split; [done|]. by eapply lseg_cons. }
  assert (Htnot : t ∉ (pre ++ [(c, x)]).*1).
  { rewrite fst_snoc, elem_of_app, list_elem_of_singleton.
    intros [Hin| ->]; [|done]. apply (Hd t Hin). right. left. }
  destruct (lseg_head_in _ _ _ _ Hwalk) as (hd & Hhd & Hhdin);
    [by destruct pre|].
  unfold insert_before.
  rewrite decide_False by (rewrite Hhd; intros [= ->]; done).
  rewrite (find_pred_lseg _ _ _ _ _ _ _ Hwalk Htnot) by (unfold steps; lia).
  rewrite Hhc. cbn [data next].
  rewrite decide_False; [done|].
  rewrite Ht. intros Heq. apply Hkcs.
  rewrite !last_app, !last_cons_cons in Heq.
  apply elem_of_app. right. right.
  destruct (last (t :: post.*1)) as [z|] eqn:E; [|by apply last_None in E].
  cbn in Heq. injection Heq as <-.
  apply last_Some in E as (l' & ->). apply elem_of_app. right. left.
Qed.

Lemma insert_before_interior_rep h l pre c x t y post v :
  rep h l (pre ++ (c, x) :: (t, y) :: post) ->
  rep (<[c := mkNode x (Some (alloc h))]>
         (<[alloc h := mkNode v (Some t)]> h))
      (mkList (head l) (tail l) (incr (list_size l)))
      (pre ++ (c, x) :: (alloc h, v) :: (t, y) :: post).
Proof.
  intros (Hl & Hnd & Ht & Hs).
  pose proof (alloc_fresh h) as Hk. set (k := alloc h) in *.
  assert (Hkcs : k ∉ (pre ++ (c, x) :: (t, y) :: post).*1)
    by (by eapply lseg_fresh).
  rewrite fmap_app, !fmap_cons in Hnd, Ht, Hkcs. cbn [fst] in Hnd, Ht, Hkcs.
  rewrite elem_of_app, !elem_of_cons in Hkcs.
  apply NoDup_app in Hnd as (Hnd1 & Hd & Hnd2).
  pose proof Hnd2 as Hnd2'.
  apply NoDup_cons in Hnd2 as (Hc & Hnd2).
  apply lseg_app in Hl as (r & Hpre & [-> (r1 & Hhc & Hrest)]).
  pose proof Hrest as [-> _].
  split; [|split; [|split]]; cbn [head tail list_size].
  - apply lseg_app. exists (Some c). split.
    + apply lseg_insert_ne; [intros Hin; apply (Hd c Hin); left|].
      apply lseg_insert_ne; [tauto|done].
    + eapply lseg_cons; [apply lookup_insert_eq|].
      eapply lseg_cons.
      * rewrite lookup_insert_ne by (intros ->; tauto).
        apply lookup_insert_eq.
      * apply lseg_insert_ne; [done|]. apply lseg_insert_ne; [|done].
        rewrite fmap_cons. cbn [fst]. rewrite elem_of_cons. tauto.
  - rewrite fmap_app, !fmap_cons. cbn [fst]. apply NoDup_app.
    split; [done|]. split.
    + intros z Hz Hin. apply elem_of_cons in Hin as [->|Hin];
        [apply (Hd c Hz); left|].
      apply elem_of_cons in Hin as [->|Hin]; [tauto|].
      apply (Hd z Hz). by right.
    + apply NoDup_cons. split.
      * rewrite elem_of_cons. intros [->|Hin]; [tauto|done].
      * apply NoDup_cons. split; [|done]. rewrite elem_of_cons. tauto.
  - rewrite Ht, !fmap_app, !fmap_cons. cbn [fst].
    by rewrite !last_app, !last_cons_cons.
  - rewrite Hs, incr_wrap, !length_app. cbn [length]. f_equal. lia.
Qed.

Lemma decr_incr_list_size h l cs :
  rep h l cs -> decr (incr (list_size l)) = list_size l.
Proof.
  intros (_ & _ & _ & ->). rewrite incr_wrap, decr_wrap. f_equal. lia.
Qed.


(** X2: on a well-formed list, [insert_before(pos, v)] with [pos] a
    non-null pointer that is no node of the list throws
    "Position not found." and changes nothing. *)
Theorem insert_before_unknown_position_throws h l cs t v :
  rep h l cs -> t ∉ cs.*1 ->
  insert_before alloc (Some t) v (h, l)
  = (Throw "Position not found.", (h, l)) /\
  PositionNotFound "Position not found." = true.
Proof.
  intros (Hl & Hnd & _) Ht. split; [|done]. unfold insert_before.
  assert (Hhd : Some t ≠ head l).
  { destruct cs as [|[k x] cs]; simpl in Hl; [by rewrite Hl|].
    destruct Hl as [-> _]. intros [= ->]. apply Ht. rewrite fmap_cons. left. }
  rewrite decide_False by done.
  rewrite (find_pred_absent h cs (Some t)); [done|done|done| |].
  - intros k Hk [= ->]. done.
  - pose proof (lseg_length _ _ _ _ Hl Hnd). unfold steps. lia.
Qed.

(** X3: on a well-formed list, [insert_before(pos, v)] followed by
    [erase_before(pos)], with [pos] a node past the head, both return
    normally and give back the very state (heap and object) the list
    was in. *)
Theorem insert_then_erase_restores h l pre c x t y post v :
  rep h l (pre ++ (c, x) :: (t, y) :: post) ->
  exists c1,
    insert_before alloc (Some t) v (h, l) = (Ok tt, c1) /\
    erase_before (Some t) c1 = (Ok tt, (h, l)).
Proof.
  intros Hrep. eexists.
  split; [exact (insert_before_interior_eq _ _ _ _ _ _ _ _ v Hrep)|].
  pose proof (insert_before_interior_rep _ _ _ _ _ _ _ _ v Hrep) as R.
  pose proof (decr_incr_list_size _ _ _ Hrep) as Hsize.
  pose proof (alloc_fresh h) as Hk. set (k := alloc h) in *.
  set (h1 := <[c := mkNode x (Some k)]> (<[k := mkNode v (Some t)]> h)) in *.
  set (l1 := mkList (head l) (tail l) (incr (list_size l))) in *.
  destruct Hrep as (Hl0 & _).
  apply lseg_app in Hl0 as (r0 & _ & [-> (r1 & Hhc & [-> _])]).
  assert (Hck : c ≠ k) by congruence.
  destruct R as (Hl & Hnd & Ht & Hs).
  pose proof (lseg_length _ _ _ _ Hl Hnd) as Hlen.
  rewrite length_app in Hlen. cbn [length] in Hlen.
  rewrite fmap_app, !fmap_cons in Hnd. cbn [fst] in Hnd.
  apply NoDup_app in Hnd as (Hnd1 & Hd & Hnd2).
  apply NoDup_cons in Hnd2 as (Hc & Hnd2).
  apply NoDup_cons in Hnd2 as (Hkn & Hnd2).
  apply not_elem_of_cons in Hc as [_ Hc].
  apply not_elem_of_cons in Hc as [Hct Hcpost].
  apply not_elem_of_cons in Hkn as [Hkt Hkpost].
  apply lseg_app in Hl as (r & Hpre & Hrest).
  destruct Hrest as [-> (r1' & Hh1c & [-> (r2 & Hh1k & Hrest)])].
  pose proof Hrest as [-> _].
  assert (Hwalk : lseg h1 (head l1) ((pre ++ [(c, x)]) ++ [(k, v)]) (Some t)).
  { apply lseg_app. exists (Some k). split; [|by eapply lseg_cons].
    apply lseg_app. exists (Some c). split; [done|]. by eapply lseg_cons. }
  assert (Htnot : t ∉ ((pre ++ [(c, x)]) ++ [(k, v)]).*1).
  { rewrite !fst_snoc. rewrite !elem_of_app, !list_elem_of_singleton.
    intros [[Hin| ->]| ->]; try done.
    apply (Hd t Hin). right. right. left. }
  destruct (lseg_head_in _ _ _ _ Hwalk) as (hd & Hhd & Hhdin);
    [by destruct pre|].
  unfold erase_before. rewrite Hhd.
  rewrite decide_False by (intros [= ->]; done). rewrite <- Hhd.
  rewrite (erase_walk_lseg _ _ _ _ _ _ _ _ Hwalk Htnot);
    [|rewrite length_app; unfold steps; simpl; lia].
  rewrite fst_snoc, last_snoc, Hh1c, Hh1k. cbn [data next].
  f_equal. f_equal.
  - set (h2 := <[c := mkNode x (Some t)]> (<[k := mkNode v None]> h1)).
    assert (Hrel : forall z, release h2 (Some k) !! z
                    = if decide (z ∈ [k]) then None else h2 !! z).
    { intros z. apply (release_lookup h2 (Some k) [(k, v)]).
      - eapply lseg_cons; [|done]. unfold h2.
        rewrite lookup_insert_ne by done. apply lookup_insert_eq.
      - apply NoDup_singleton. }
    apply map_eq. intros z. rewrite Hrel.
    destruct (decide (z = k)) as [->|Hzk].
    + rewrite decide_True by left. done.
    + rewrite decide_False by (by intros ->%list_elem_of_singleton).
      unfold h2, h1. destruct (decide (z = c)) as [->|Hzc].
      * rewrite lookup_insert_eq. symmetry. exact Hhc.
      * by rewrite !lookup_insert_ne.
  - unfold l1. cbn [head tail list_size]. rewrite Hsize. by destruct l.
Qed.

(** The walk of [erase_before] throws when it reaches the last node
    without having met [pos]. *)
Lemma erase_walk_absent h pos cs : forall fuel prev c x,
  lseg h (Some c) ((c, x) :: cs) None -> cs ≠ [] ->
  (forall k, k ∈ cs.*1 -> pos ≠ Some k) ->
  (length cs < fuel)%nat ->
  erase_walk fuel h prev (Some c) pos = Throw "Position not found.".
Proof.
  induction cs as [|[c' x'] cs IH]; intros fuel prev c x Hl Hne Hnot Hf;
    [done|].
  destruct fuel as [|fuel]; [simpl in Hf; lia|].
  destruct Hl as [_ (r & Hc & [-> (r' & Hc' & Hr')])].
  cbn [erase_walk]. rewrite Hc. cbn [next].
  rewrite decide_False by (intros <-; apply (Hnot c'); [|done];
                           rewrite fmap_cons; left).
  rewrite Hc'. cbn [next].
  destruct cs as [|[c2 x2] cs]; [simpl in Hr'; by subst r'|].
  pose proof Hr' as [-> _].
  apply (IH fuel (Some c) c' x');
    [by eapply lseg_cons|done| |cbn [length] in Hf |- *; lia].
  intros k Hk. apply Hnot. rewrite fmap_cons. by right.
Qed.

(** X4: on a well-formed list of two or more elements,
    [erase_before(pos)] with [pos] null or any pointer that is no node
    of the list throws "Position not found." and changes nothing: the
    last element cannot be erased through [end()]. *)
Theorem erase_before_unknown_position_throws h l cs pos :
  rep h l cs -> (2 <= length cs)%nat ->
  (forall k, k ∈ cs.*1 -> pos ≠ Some k) ->
  erase_before pos (h, l) = (Throw "Position not found.", (h, l)) /\
  PositionNotFound "Position not found." = true.
Proof.
  intros (Hl & Hnd & _) Hlen Hnot. split; [|done].
  pose proof (lseg_length _ _ _ _ Hl Hnd) as Hsz.
  destruct cs as [|[c x] cs]; [simpl in Hlen; lia|].
  pose proof Hl as [Hhd _]. unfold erase_before. rewrite Hhd.
  rewrite decide_False by (apply Hnot; rewrite fmap_cons; left).
  rewrite Hhd in Hl.
  rewrite (erase_walk_absent h pos cs _ None c x); [done|done| | |].
  - destruct cs; [simpl in Hlen; lia|done].
  - intros k Hk. apply Hnot. rewrite fmap_cons. by right.
  - simpl in Hsz. unfold steps. lia.
Qed.

(** X5: on a well-formed list of one element, [erase_before(nullptr)]
    returns normally and changes nothing, and [erase_before(pos)] with
    any other pointer than the head dereferences a null pointer. *)
Theorem erase_before_single_element h l k x :
  rep h l [(k, x)] ->
  erase_before None (h, l) = (Ok tt, (h, l)) /\
  forall t, t ≠ k -> fst (erase_before (Some t) (h, l)) = Fault.
Proof.
  intros ([Hhd (r & Hk & Hr)] & _). simpl in Hr. subst r. split.
  - unfold erase_before. rewrite Hhd. rewrite decide_False by done.
    unfold steps. cbn [erase_walk]. rewrite Hk. cbn [next].
    by rewrite decide_True.
  - intros t Ht. unfold erase_before. rewrite Hhd.
    rewrite decide_False by congruence.
    unfold steps. cbn [erase_walk]. rewrite Hk. cbn [next].
    by rewrite decide_False.
Qed.

(** X6: on a well-formed list, [erase_before(pos)] with [pos] a node at
    index two or more returns normally, removes the element just before
    [pos] and nothing else, and decrements [list_size]; the list stays
    well formed. *)
Theorem erase_before_removes_predecessor h l pre pv xp c xc t y post :
  rep h l (pre ++ (pv, xp) :: (c, xc) :: (t, y) :: post) ->
  exists h' l',
    erase_before (Some t) (h, l) = (Ok tt, (h', l')) /\
    rep h' l' (pre ++ (pv, xp) :: (t, y) :: post) /\
    to_vector (h', l') = Ok (pre.*2 ++ xp :: y :: post.*2) /\
    list_size l' = decr (list_size l).
Proof.
  intros Hrep.
  destruct (erase_before_rep _ _ _ _ _ _ _ _ _ _ Hrep) as (h' & l' & E & R & Hs).
  exists h', l'. split; [done|]. split; [done|]. split; [|done].
  rewrite (to_vector_rep _ _ _ R). by rewrite fmap_app, !fmap_cons.
Qed.

End Positions.

(** ** How the operations compose *)

Section Compositions.

Context {T : Type}.
Variable alloc : gmap loc (Node T) -> loc.
Hypothesis alloc_fresh : forall h : gmap loc (Node T), h !! alloc h = None.

Implicit Types (h : gmap loc (Node T)) (p q pos : ptr).
Implicit Types (cs pre post : list (loc * T)) (l : SinglyLinkedList) (v : T).

(** What [push_back] returns on a nonempty list whose [tail] is a live
    node. *)
Lemma push_back_eq h l hd t n v :
  head l = Some hd -> tail l = Some t -> h !! t = Some n ->
  push_back alloc v (h, l)
  = (Ok tt, (release (<[t := mkNode (data n) (Some (alloc h))]>
                        (<[alloc h := mkNode v None]> h)) (next n),
             mkList (head l) (Some (alloc h)) (incr (list_size l)))).
Proof.
  intros Hhd Ht Hn. unfold push_back. rewrite Hhd, Ht.
  rewrite lookup_insert_ne by (intros <-; rewrite alloc_fresh in Hn; done).
  by rewrite Hn.
Qed.

(** What [pop_back] returns when the walk finds the node before
    [tail]. *)
Lemma pop_back_walk_eq h l pre c x t :
  lseg h (head l) (pre ++ [(c, x)]) (Some t) ->
  t ∉ (pre ++ [(c, x)]).*1 -> tail l = Some t ->
  (length pre <= size h)%nat ->
  pop_back (h, l)
  = (Ok tt, (release (<[c := mkNode x None]> h) (Some t),
             mkList (head l) (Some c) (decr (list_size l)))).
Proof.
  intros Hl Ht Htl Hlen.
  destruct (lseg_head_in _ _ _ _ Hl) as (hd & Hhd & Hhdin);
    [by destruct pre|].
  pose proof Hl as Hl'.
  apply lseg_app in Hl' as (r & _ & [-> (r' & Hc & Hr')]).
  simpl in Hr'. subst r'.
  unfold pop_back. rewrite Hhd, Htl.
  rewrite decide_False by (intros [= ->]; done). rewrite <- Hhd.
  rewrite (walk_to_tail_lseg _ _ _ pre c x t); [|done|done|unfold steps; lia].
  by rewrite Hc.
Qed.

(** Releasing the pointer to a lone node deletes it. *)
Lemma release_single h k x :
  h !! k = Some (mkNode x None) -> release h (Some k) = delete k h.
Proof.
  intros Hk. apply map_eq. intros z.
  rewrite (release_lookup h (Some k) [(k, x)]);
    [|by eapply lseg_cons|apply NoDup_singleton].
  destruct (decide (z = k)) as [->|Hne].
  - rewrite decide_True by left. by rewrite lookup_delete_eq.
  - rewrite decide_False by (by intros ->%list_elem_of_singleton).
    by rewrite lookup_delete_ne.
Qed.

(** X7: on a well-formed list, [push_front(v)] followed by
    [pop_front()], and [push_back(v)] followed by [pop_back()], give
    back the very state (heap and object) the list was in. *)
Theorem push_then_pop_restores h l cs v :
  rep h l cs ->
  (exists c1, push_front alloc v (h, l) = (Ok tt, c1) /\
              pop_front c1 = (Ok tt, (h, l))) /\
  (exists c1, push_back alloc v (h, l) = (Ok tt, c1) /\
              pop_back c1 = (Ok tt, (h, l))).
Proof.
  intros Hrep. pose proof (decr_incr_list_size _ _ _ Hrep) as Hsize.
  pose proof (alloc_fresh h) as Hk. set (k := alloc h) in *.
  pose proof Hrep as (Hl & Hnd & Ht & Hs). split.
  - unfold push_front. fold k. destruct (head l) as [hd|] eqn:Hhd.
    + eexists. split; [done|]. unfold pop_front. cbn [head].
      rewrite lookup_insert_eq. cbn [next tail list_size].
      rewrite delete_insert_id by done. rewrite Hsize.
      destruct l. simpl in *. by subst.
    + eexists. split; [done|]. unfold pop_front. cbn [head].
      rewrite lookup_insert_eq. cbn [next tail list_size].
      rewrite delete_insert_id by done. rewrite Hsize.
      destruct cs as [|[c x] cs]; [|by destruct Hl as [? _]; congruence].
      by rewrite (rep_nil_inv _ _ Hrep).
  - destruct cs as [|[t y] cs0 _] using rev_ind.
    + rewrite (rep_nil_inv _ _ Hrep) in *. eexists. split; [done|].
      unfold pop_back. cbn [head fst snd tail].
      rewrite decide_True by done. cbn [list_size]. rewrite Hsize.
      fold k. rewrite (release_single _ k v) by apply lookup_insert_eq.
      by rewrite delete_insert_id.
    + rewrite fst_snoc, last_snoc in Ht.
      pose proof (lseg_length _ _ _ _ Hl Hnd) as Hlen.
      rewrite length_app in Hlen. simpl in Hlen.
      assert (Hkcs : k ∉ (cs0 ++ [(t, y)]).*1) by (by eapply lseg_fresh).
      pose proof Hl as Hl'.
      apply lseg_app in Hl' as (r & Hpre & [-> (r' & Hty & Hr')]).
      simpl in Hr'. subst r'.
      destruct (lseg_head_in _ _ _ _ Hl) as (hd & Hhd & _);
        [by destruct cs0|].
      assert (Htk : t ≠ k) by congruence.
      eexists. split; [exact (push_back_eq _ _ _ _ _ v Hhd Ht Hty)|].
      fold k. cbn [data next]. rewrite release_null.
      set (h1 := <[t := mkNode y (Some k)]> (<[k := mkNode v None]> h)).
      rewrite (pop_back_walk_eq h1 _ cs0 t y k).
      * cbn [head list_size]. rewrite Hsize. f_equal. f_equal.
        -- rewrite (release_single _ k v).
           ++ unfold h1. rewrite insert_insert_eq.
              rewrite delete_insert_ne by done.
              rewrite delete_insert_id by done.
              by apply insert_id.
           ++ rewrite lookup_insert_ne by done. unfold h1.
              rewrite lookup_insert_ne by done. apply lookup_insert_eq.
        -- rewrite <- Ht. by destruct l.
      * cbn [head]. apply lseg_app. exists (Some t). split.
        -- unfold h1. apply lseg_insert_ne.
           { intros Hin. rewrite fst_snoc in Hnd.
             apply NoDup_app in Hnd as (_ & Hd & _).
             apply (Hd t Hin). left. }
           apply lseg_insert_ne; [|done].
           intros Hin. apply Hkcs. rewrite fst_snoc. apply elem_of_app.
           by left.
        -- eapply lseg_cons; [apply lookup_insert_eq|done].
      * done.
      * done.
      * unfold h1. rewrite map_size_insert_Some.
        -- rewrite map_size_insert_None by done. lia.
        -- rewrite lookup_insert_ne by done. by eexists.
Qed.

(** X8: [clear()] on a well-formed list returns normally, leaves the
    empty list, destroys exactly the nodes of the list and leaves every
    other node of the heap alone; a second [clear()] returns normally
    and changes nothing. *)
Theorem clear_destroys_nodes_and_is_idempotent h l cs :
  rep h l cs ->
  exists h',
    clear (h, l) = (Ok tt, (h', empty_list)) /\
    (forall k, h' !! k = if decide (k ∈ cs.*1) then None else h !! k) /\
    to_vector (h', empty_list) = Ok [] /\
    clear (h', empty_list) = (Ok tt, (h', empty_list)).
Proof.
  intros (Hl & Hnd & _). exists (release h (head l)).
  split; [done|]. split; [intros k; by apply release_lookup|].
  split; [done|]. unfold clear. cbn [head]. by rewrite release_null.
Qed.

(** X9: the initializer-list (and range) constructor returns normally
    and builds a well-formed list holding the given values in the given
    order, with [size()] their number (as a [std::size_t]); no node
    that was in the heap before is touched. *)
Theorem from_initializer_list_builds (vals : list T) h :
  exists h' l cs,
    from_initializer_list alloc vals h = (Ok tt, (h', l)) /\
    rep h' l cs /\ cs.*2 = vals /\
    to_vector (h', l) = Ok vals /\
    size_ (h', l) = wrap (Z.of_nat (length vals)) /\
    (forall k, is_Some (h !! k) -> h' !! k = h !! k /\ k ∉ cs.*1).
Proof.
  destruct (push_back_all_rep alloc alloc_fresh vals h empty_list []
              (rep_empty h)) as (h' & l & cs & E & R & Hv & [F F']).
  cbn [fmap list_fmap app] in Hv.
  exists h', l, cs. split; [done|]. split; [done|]. split; [done|].
  split; [by rewrite (to_vector_rep _ _ _ R), Hv|]. split.
  - destruct R as (_ & _ & _ & Hs). unfold size_. cbn [snd].
    by rewrite Hs, <- (length_fmap snd cs), Hv.
  - intros k Hk. split; [apply F; [apply not_elem_of_nil|done]|].
    intros Hin. destruct (F' k Hin) as [Hnil|Hnone].
    + by apply elem_of_nil in Hnil.
    + rewrite Hnone in Hk. by destruct Hk.
Qed.

(** X10: on a well-formed list of fewer than 2^64 - 1 elements, each of
    [push_back], [push_front], [pop_front], [pop_back] and [clear]
    leaves a well-formed list on which the structural invariants hold
    ([size == 0] iff [head] null iff [tail] null, [tail] reached from
    [head] in [size - 1] links, [tail->next] null), whether the call
    returns or throws. *)
Theorem mutations_keep_structural_invariants (op : mutation T) h l cs :
  rep h l cs -> Z.of_nat (length cs) + 1 < size_modulus ->
  exists h' l' cs',
    snd (mutate alloc op (h, l)) = (h', l') /\
    rep h' l' cs' /\
    structural_invariants (h', l') = true /\
    (fst (mutate alloc op (h, l)) = Ok tt \/
     exists w, fst (mutate alloc op (h, l)) = Throw w).
Proof.
  intros Hrep Hb.
  destruct (mutate_rep alloc alloc_fresh op _ _ _ Hrep)
    as (h' & l' & cs' & E & R & _ & Hop).
  exists h', l', cs'. split; [done|]. split; [done|].
  assert (Hlen : (length cs' <= length cs + 1)%nat).
  { destruct (apply_op op cs.*2) as [ys|] eqn:Eop.
    - destruct Hop as [_ Hys].
      rewrite <- (length_fmap snd cs'), Hys, <- (length_fmap snd cs).
      destruct op as [u|u| | |]; cbn in Eop.
      + injection Eop as <-. rewrite length_app. simpl. lia.
      + injection Eop as <-. simpl. lia.
      + destruct (cs.*2); [done|]. injection Eop as <-. simpl. lia.
      + destruct (cs.*2) as [|z zs _] using rev_ind; [done|].
        rewrite removelast_last in Eop.
        destruct (zs ++ [z]) eqn:Ez; [by destruct zs|].
        injection Eop as <-. rewrite <- Ez, length_app. simpl. lia.
      + injection Eop as <-. simpl. lia.
    - destruct Hop as (_ & _ & _ & ->). lia. }
  split; [apply (rep_structural_invariants _ _ _ R); lia|].
  destruct (apply_op op cs.*2); [left; tauto|right].
  destruct Hop as ((w & Hw & _) & _). by exists w.
Qed.

(** *** After [insert_before(nullptr, v)] *)

(** What [insert_before(nullptr, v)] returns on a nonempty well-formed
    list. *)
Lemma insert_before_null_eq h l cs0 t y v :
  rep h l (cs0 ++ [(t, y)]) ->
  insert_before alloc None v (h, l)
  = (Ok tt, (<[t := mkNode y (Some (alloc h))]>
               (<[alloc h := mkNode v None]> h),
             mkList (head l) (tail l) (incr (list_size l)))).
Proof.
  intros (Hl & Hnd & Ht & Hs). rewrite fst_snoc, last_snoc in Ht.
  pose proof (lseg_length _ _ _ _ Hl Hnd) as Hlen.
  rewrite length_app in Hlen. simpl in Hlen.
  pose proof (alloc_fresh h) as Hk.
  destruct (lseg_head_in _ _ _ _ Hl) as (hd & Hhd & _); [by destruct cs0|].
  pose proof Hl as Hl'.
  apply lseg_app in Hl' as (r & _ & [-> (r' & Hty & Hr')]).
  simpl in Hr'. subst r'.
  unfold insert_before. rewrite decide_False by (by rewrite Hhd).
  rewrite (find_pred_null _ _ _ cs0 t y); [|done|unfold steps; lia].
  rewrite Hty. cbn [data next]. rewrite Ht.
  rewrite decide_False; [done|]. intros [= Heq]. congruence.
Qed.

(** The chain it leaves: the old nodes, then the new one; [tail] is the
    old last node. *)
Lemma insert_before_null_chain h l cs0 t y v :
  rep h l (cs0 ++ [(t, y)]) ->
  let k := alloc h in
  let h1 := <[t := mkNode y (Some k)]> (<[k := mkNode v None]> h) in
  lseg h1 (head l) cs0 (Some t) /\
  h1 !! t = Some (mkNode y (Some k)) /\
  h1 !! k = Some (mkNode v None) /\
  t ≠ k /\ (k ∉ cs0.*1) /\ (t ∉ cs0.*1) /\ NoDup cs0.*1 /\
  tail l = Some t /\ (length cs0 + 2 <= size h1)%nat.
Proof.
  intros (Hl & Hnd & Ht & Hs) k h1. rewrite fst_snoc, last_snoc in Ht.
  pose proof (lseg_length _ _ _ _ Hl Hnd) as Hlen.
  rewrite length_app in Hlen. simpl in Hlen.
  pose proof (alloc_fresh h) as Hk. fold k in Hk.
  assert (Hkcs : k ∉ (cs0 ++ [(t, y)]).*1) by (by eapply lseg_fresh).
  rewrite fst_snoc in Hnd, Hkcs.
  apply NoDup_app in Hnd as (Hnd0 & Hd & _).
  rewrite elem_of_app, list_elem_of_singleton in Hkcs.
  apply lseg_app in Hl as (r & Hpre & [-> (r' & Hty & Hr')]).
  assert (Htk : t ≠ k) by (intros Heq; apply Hkcs; by right).
  assert (Htcs : t ∉ cs0.*1) by (intros Hin; apply (Hd t Hin); left).
  split; [|split; [|split; [|split; [|split; [|split; [|split; [|split]]]]]]];
    try done; try tauto.
  - unfold h1. apply lseg_insert_ne; [done|].
    apply lseg_insert_ne; [tauto|done].
  - apply lookup_insert_eq.
  - unfold h1. rewrite lookup_insert_ne by done. apply lookup_insert_eq.
  - unfold h1. rewrite map_size_insert_Some.
    + rewrite map_size_insert_None by done. lia.
    + rewrite lookup_insert_ne by done. by eexists.
Qed.

(** X11: on a nonempty well-formed list, [insert_before(nullptr, v)]
    followed by [push_back(u)]: both return normally, the node holding
    [v] is destroyed, and the list reads as the old elements followed by
    [u] alone, although [list_size] has been incremented twice. *)
Theorem insert_null_then_push_back_loses_element h l cs v u :
  rep h l cs -> cs ≠ [] ->
  exists c1 c2,
    insert_before alloc None v (h, l) = (Ok tt, c1) /\
    to_vector c1 = Ok (cs.*2 ++ [v]) /\
    push_back alloc u c1 = (Ok tt, c2) /\
    to_vector c2 = Ok (cs.*2 ++ [u]) /\
    size_ c2 = wrap (Z.of_nat (length cs) + 2) /\
    fst c2 !! alloc h = None.
Proof.
  intros Hrep Hne.
  destruct cs as [|[t y] cs0 _] using rev_ind; [done|]. clear Hne.
  pose proof (insert_before_null_chain _ _ _ _ _ v Hrep)
    as (Hpre & Hh1t & Hh1k & Htk & Hkcs & Htcs & Hnd0 & Ht & Hlen).
  pose proof Hrep as (Hl & _ & _ & Hs).
  destruct (lseg_head_in _ _ _ _ Hl) as (hd & Hhd & _); [by destruct cs0|].
  set (k := alloc h) in *.
  set (h1 := <[t := mkNode y (Some k)]> (<[k := mkNode v None]> h)) in *.
  set (l1 := mkList (head l) (tail l) (incr (list_size l))).
  assert (Hv1 : to_vector (h1, l1) = Ok ((cs0 ++ [(t, y)]).*2 ++ [v])).
  { unfold to_vector. cbn [fst snd head l1].
    rewrite (to_vector_loop_lseg _ _ _ ((cs0 ++ [(t, y)]) ++ [(k, v)])).
    - by rewrite snd_snoc.
    - rewrite <- app_assoc. apply lseg_app. exists (Some t). split; [done|].
      eapply lseg_cons; [done|]. by eapply lseg_cons.
    - rewrite !length_app. simpl. unfold steps. lia. }
  pose proof (alloc_fresh h1) as Hq. set (q := alloc h1) in *.
  assert (Hqt : q ≠ t) by congruence.
  assert (Hqk : q ≠ k) by congruence.
  assert (Hqcs : q ∉ cs0.*1) by (by eapply lseg_fresh).
  set (h2 := <[t := mkNode y (Some q)]> (<[q := mkNode u None]> h1)).
  assert (Hh2k : h2 !! k = Some (mkNode v None)).
  { unfold h2. by rewrite !lookup_insert_ne by done. }
  assert (Hpush : push_back alloc u (h1, l1)
            = (Ok tt, (delete k h2,
                       mkList (head l) (Some q) (incr (incr (list_size l)))))).
  { rewrite (push_back_eq h1 l1 hd t (mkNode y (Some k)) u); try done.
    cbn [data next]. fold q. fold h2.
    by rewrite (release_single _ k v). }
  assert (Hchain : lseg (delete k h2) (head l)
                     ((cs0 ++ [(t, y)]) ++ [(q, u)]) None).
  { rewrite <- app_assoc. apply lseg_app. exists (Some t). split.
    - eapply lseg_ext; [|exact Hpre]. intros z Hz.
      rewrite lookup_delete_ne by (intros ->; done).
      unfold h2. rewrite !lookup_insert_ne; [done|..]; intros ->; done.
    - eapply lseg_cons.
      + rewrite lookup_delete_ne by done. apply lookup_insert_eq.
      + eapply lseg_cons; [|done]. rewrite lookup_delete_ne by done.
        unfold h2. rewrite lookup_insert_ne by done. apply lookup_insert_eq. }
  assert (Hndq : NoDup ((cs0 ++ [(t, y)]) ++ [(q, u)]).*1).
  { rewrite !fst_snoc. apply NoDup_app. split; [|split].
    - apply NoDup_app. split; [done|]. split; [|apply NoDup_singleton].
      by intros z Hz ->%list_elem_of_singleton.
    - intros z Hz ->%list_elem_of_singleton.
      apply elem_of_app in Hz as [?| ->%list_elem_of_singleton]; done.
    - apply NoDup_singleton. }
  exists (h1, l1), (delete k h2,
                    mkList (head l) (Some q) (incr (incr (list_size l)))).
  split; [exact (insert_before_null_eq _ _ _ _ _ v Hrep)|]. split; [done|].
  split; [done|]. split; [|split].
  - unfold to_vector. cbn [fst snd head].
    rewrite (to_vector_loop_lseg _ _ _ _ _ Hchain).
    + by rewrite snd_snoc.
    + pose proof (lseg_length _ _ _ _ Hchain Hndq). unfold steps. lia.
  - unfold size_. cbn [snd list_size]. rewrite Hs, !incr_wrap.
    f_equal. lia.
  - cbn [fst]. apply lookup_delete_eq.
Qed.

(** X12: on a nonempty well-formed list, [insert_before(nullptr, v)]
    followed by [pop_back()]: both return normally, the old last
    element and [v] are both destroyed, and [list_size] is what it was
    before the two calls, one more than the number of elements left. *)
Theorem insert_null_then_pop_back_drops_two h l cs v :
  rep h l cs -> cs ≠ [] ->
  exists c1 c2 t y,
    insert_before alloc None v (h, l) = (Ok tt, c1) /\
    last cs = Some (t, y) /\
    pop_back c1 = (Ok tt, c2) /\
    to_vector c2 = Ok (removelast cs.*2) /\
    size_ c2 = size_ (h, l) /\
    fst c2 !! t = None /\ fst c2 !! alloc h = None.
Proof.
  intros Hrep Hne.
  destruct cs as [|[t y] cs0 _] using rev_ind; [done|]. clear Hne.
  pose proof (insert_before_null_chain _ _ _ _ _ v Hrep)
    as (Hpre & Hh1t & Hh1k & Htk & Hkcs & Htcs & Hnd0 & Ht & Hlen).
  pose proof (decr_incr_list_size _ _ _ Hrep) as Hsize.
  set (k := alloc h) in *.
  set (h1 := <[t := mkNode y (Some k)]> (<[k := mkNode v None]> h)) in *.
  set (l1 := mkList (head l) (tail l) (incr (list_size l))).
  assert (Hrel : forall h0, h0 !! t = Some (mkNode y (Some k)) ->
            h0 !! k = Some (mkNode v None) ->
            forall z, release h0 (Some t) !! z
                      = if decide (z ∈ [t; k]) then None else h0 !! z).
  { intros h0 H0t H0k z. apply (release_lookup h0 (Some t) [(t, y); (k, v)]).
    - eapply lseg_cons; [done|]. by eapply lseg_cons.
    - apply NoDup_cons. split; [|apply NoDup_singleton].
      cbn [fst]. by intros ->%list_elem_of_singleton. }
  assert (Hin2 : forall z, z ∈ [t; k] <-> z = t \/ z = k).
  { intros z. rewrite elem_of_cons, list_elem_of_singleton. done. }
  exists (h1, l1).
  destruct cs0 as [|[c x] cs00 _] using rev_ind.
  - simpl in Hpre.
    eexists (release h1 (Some t), mkList None None (list_size l)), t, y.
    split; [exact (insert_before_null_eq _ _ _ _ _ v Hrep)|]. split; [done|].
    split; [|split; [|split; [|split]]].
    + unfold pop_back. cbn [head l1 tail list_size]. rewrite Hpre, Ht.
      rewrite decide_True by done. by rewrite Hsize.
    + done.
    + done.
    + cbn [fst]. rewrite (Hrel h1) by done. rewrite decide_True; [done|].
      apply Hin2. by left.
    + cbn [fst]. rewrite (Hrel h1) by done. rewrite decide_True; [done|].
      apply Hin2. by right.
  - rewrite fst_snoc in Hkcs, Htcs, Hnd0.
    rewrite elem_of_app, list_elem_of_singleton in Hkcs, Htcs.
    rewrite length_app in Hlen. simpl in Hlen.
    pose proof Hpre as Hpre'.
    apply lseg_app in Hpre' as (r & Hpre00 & [-> (r' & Hh1c & Hr')]).
    simpl in Hr'. subst r'.
    set (h2 := <[c := mkNode x None]> h1).
    assert (Hpop : pop_back (h1, l1)
              = (Ok tt, (release h2 (Some t),
                         mkList (head l) (Some c) (list_size l)))).
    { rewrite (pop_back_walk_eq h1 l1 cs00 c x t); try done.
      - cbn [head l1 list_size]. by rewrite Hsize.
      - rewrite fst_snoc, elem_of_app, list_elem_of_singleton. tauto.
      - lia. }
    assert (Hh2 : forall z, release h2 (Some t) !! z
              = if decide (z ∈ [t; k]) then None else h2 !! z).
    { apply Hrel; unfold h2; rewrite lookup_insert_ne; try done;
        intros ->; tauto. }
    eexists (release h2 (Some t), mkList (head l) (Some c) (list_size l)),
      t, y.
    split; [exact (insert_before_null_eq _ _ _ _ _ v Hrep)|]. split; [apply last_snoc|].
    split; [done|]. split; [|split; [|split]].
    + unfold to_vector. cbn [fst snd head].
      rewrite (to_vector_loop_lseg _ _ _ (cs00 ++ [(c, x)])).
      * by rewrite (snd_snoc (cs00 ++ [(c, x)]) t y), removelast_last.
      * apply lseg_app. exists (Some c). split.
        -- eapply lseg_ext; [|exact Hpre00]. intros z Hz. rewrite Hh2.
           apply NoDup_app in Hnd0 as (_ & Hd & _).
           rewrite decide_False.
           ++ unfold h2. apply lookup_insert_ne. intros Heq. subst z.
              apply (Hd c Hz). left.
           ++ rewrite Hin2. intros [->| ->]; tauto.
        -- eapply lseg_cons; [|done]. rewrite Hh2. rewrite decide_False.
           ++ apply lookup_insert_eq.
           ++ rewrite Hin2. intros [->| ->]; tauto.
      * rewrite length_app. simpl.
        assert (size (release h2 (Some t)) = pred (pred (size h2))) as Hsz.
        { assert (Heq : release h2 (Some t) = delete k (delete t h2)).
          { apply map_eq. intros z. rewrite Hh2.
            destruct (decide (z = k)) as [->|Hzk].
            - rewrite decide_True by (apply Hin2; by right).
              by rewrite lookup_delete_eq.
            - rewrite lookup_delete_ne by done.
              destruct (decide (z = t)) as [->|Hzt].
              + rewrite decide_True by (apply Hin2; by left).
                by rewrite lookup_delete_eq.
              + rewrite decide_False by (rewrite Hin2; tauto).
                by rewrite lookup_delete_ne. }
          rewrite Heq.
          assert (Ht2 : h2 !! t = Some (mkNode y (Some k))).
          { unfold h2. rewrite lookup_insert_ne; [done|]. intros ->. tauto. }
          assert (Hk2 : delete t h2 !! k = Some (mkNode v None)).
          { rewrite lookup_delete_ne by done. unfold h2.
            rewrite lookup_insert_ne; [done|]. intros ->. tauto. }
          rewrite map_size_delete_Some by (by eexists).
          by rewrite map_size_delete_Some by (by eexists). }
        assert (size h2 = size h1) as Hsz2.
        { unfold h2. apply map_size_insert_Some. by eexists. }
        unfold steps. lia.
    + unfold size_. by cbn [snd list_size].
    + cbn [fst]. rewrite Hh2. rewrite decide_True; [done|].
      apply Hin2. by left.
    + cbn [fst]. rewrite Hh2. rewrite decide_True; [done|].
      apply Hin2. by right.
Qed.

(** X20: on a well-formed list of one element, [insert_before(nullptr, v)]
    followed by [pop_front()]: both return normally and the list reads
    [v], but [tail] still holds the address of the node [pop_front]
    destroyed, so that [getTail()] dereferences a dangling pointer. *)
Theorem insert_null_then_pop_front_dangles h l t y v :
  rep h l [(t, y)] ->
  exists c1 c2,
    insert_before alloc None v (h, l) = (Ok tt, c1) /\
    pop_front c1 = (Ok tt, c2) /\
    to_vector c2 = Ok [v] /\
    tail (snd c2) = Some t /\ fst c2 !! t = None /\
    fst (getTail c2) = Fault.
Proof.
  intros Hrep.
  pose proof (insert_before_null_chain _ _ [] _ _ v Hrep)
    as (Hpre & Hh1t & Hh1k & Htk & _ & _ & _ & Ht & _).
  simpl in Hpre.
  set (k := alloc h) in *.
  set (h1 := <[t := mkNode y (Some k)]> (<[k := mkNode v None]> h)) in *.
  set (l1 := mkList (head l) (tail l) (incr (list_size l))).
  set (l2 := mkList (Some k) (tail l) (decr (incr (list_size l)))).
  assert (Hpop : pop_front (h1, l1) = (Ok tt, (delete t h1, l2))).
  { unfold pop_front. cbn [head l1]. rewrite Hpre, Hh1t. done. }
  assert (Hk2 : delete t h1 !! k = Some (mkNode v None)).
  { rewrite lookup_delete_ne by done. done. }
  exists (h1, l1), (delete t h1, l2).
  split; [exact (insert_before_null_eq _ _ [] _ _ v Hrep)|].
  split; [done|]. split; [|split; [done|split]].
  - unfold to_vector, steps. cbn [fst snd head l2 to_vector_loop].
    rewrite Hk2. cbn [next data].
    destruct (size (delete t h1)) eqn:E.
    + apply map_size_empty_iff in E. rewrite E in Hk2.
      by rewrite lookup_empty in Hk2.
    + done.
  - cbn [fst]. apply lookup_delete_eq.
  - unfold getTail. cbn [tail l2]. rewrite Ht.
    by rewrite lookup_delete_eq.
Qed.

(** *** Nothing leaks *)

Lemma owns_all_intro h l cs :
  rep h l cs -> (forall z, is_Some (h !! z) -> z ∈ cs.*1) -> owns_all h cs.
Proof.
  intros (Hl & _) Hsub z. split; [apply Hsub|].
  intros Hz. by eapply lseg_is_Some.
Qed.

(** X19: if the nodes of the heap are exactly the nodes of a
    well-formed list, this is still so after each of [push_back],
    [push_front], [pop_front], [pop_back] and [clear]: every removed
    node is destroyed, and no node is left that the list does not
    reach. *)
Theorem mutations_leak_nothing (op : mutation T) h l cs :
  rep h l cs -> owns_all h cs ->
  exists h' l' cs',
    snd (mutate alloc op (h, l)) = (h', l') /\
    rep h' l' cs' /\ owns_all h' cs'.
Proof.
  intros Hrep Hown. pose proof (alloc_fresh h) as Hk.
  pose proof Hrep as (Hl & Hnd & Ht & Hs).
  assert (Hin : forall z, is_Some (h !! z) -> z ∈ cs.*1)
    by (intros z; apply Hown).
  destruct op as [v|v| | |]; cbn [mutate].
  - destruct (push_back_rep alloc alloc_fresh _ _ _ v Hrep)
      as (h' & l' & E & R & _).
    exists h', l', (cs ++ [(alloc h, v)]). rewrite E.
    split; [done|]. split; [done|]. apply (owns_all_intro _ _ _ R).
    intros z Hz. rewrite fst_snoc, elem_of_app, list_elem_of_singleton.
    destruct cs as [|[t y] cs0 _] using rev_ind.
    + rewrite (rep_nil_inv _ _ Hrep) in E. unfold push_back in E.
      cbn [head] in E. injection E as <- _.
      apply lookup_insert_is_Some in Hz as [<-|[_ Hz]]; auto.
    + rewrite fst_snoc, last_snoc in Ht.
      destruct (lseg_head_in _ _ _ _ Hl) as (hd & Hhd & _);
        [by destruct cs0|].
      apply lseg_app in Hl as (r & _ & [-> (r' & Hty & _)]).
      rewrite (push_back_eq _ _ _ _ _ v Hhd Ht Hty) in E.
      cbn [data] in E. injection E as <- _.
      destruct r' as [r'|].
      * (* the last node has no successor on a well-formed list *)
        exfalso. destruct Hrep as (Hl' & _).
        apply lseg_app in Hl' as (r0 & _ & [_ (r1 & Hty' & Hr1)]).
        simpl in Hr1. congruence.
      * cbn [next] in Hz. rewrite release_null in Hz.
        apply lookup_insert_is_Some in Hz as [<-|[_ Hz]].
        { left. rewrite fst_snoc. apply elem_of_app. right. left. }
        apply lookup_insert_is_Some in Hz as [<-|[_ Hz]]; auto.
  - destruct (push_front_rep alloc alloc_fresh _ _ _ v Hrep)
      as (h' & l' & E & R & _).
    exists h', l', ((alloc h, v) :: cs). rewrite E.
    split; [done|]. split; [done|]. apply (owns_all_intro _ _ _ R).
    intros z Hz. rewrite fmap_cons, elem_of_cons. cbn [fst].
    unfold push_front in E.
    destruct (head l); injection E as <- _;
      apply lookup_insert_is_Some in Hz as [<-|[_ Hz]]; auto.
  - destruct cs as [|[k x] cs].
    + rewrite (rep_nil_inv _ _ Hrep). by exists h, empty_list, [].
    + destruct (pop_front_rep _ _ _ _ _ Hrep) as (l' & E & R & _).
      exists (delete k h), l', cs. rewrite E.
      split; [done|]. split; [done|]. apply (owns_all_intro _ _ _ R).
      intros z [Hzk Hz]%lookup_delete_is_Some.
      apply Hin in Hz. rewrite fmap_cons in Hz.
      apply elem_of_cons in Hz as [->|Hz]; done.
  - destruct cs as [|[t y] cs0 _] using rev_ind.
    + rewrite (rep_nil_inv _ _ Hrep). by exists h, empty_list, [].
    + destruct (pop_back_rep _ _ _ _ _ Hrep) as (h' & l' & E & R & _).
      exists h', l', cs0. rewrite E.
      split; [done|]. split; [done|]. apply (owns_all_intro _ _ _ R).
      rewrite fst_snoc, last_snoc in Ht.
      pose proof (lseg_length _ _ _ _ Hl Hnd) as Hlen.
      rewrite length_app in Hlen. simpl in Hlen.
      rewrite fst_snoc in Hnd.
      apply NoDup_app in Hnd as (_ & Hd & _).
      pose proof Hl as Hl'.
      apply lseg_app in Hl' as (r & Hpre & [-> (r' & Hty & Hr')]).
      simpl in Hr'. subst r'.
      assert (Hdrop : forall z, z ≠ t -> z ∈ (cs0 ++ [(t, y)]).*1 ->
                      z ∈ cs0.*1).
      { intros z Hzt. rewrite fst_snoc, elem_of_app, list_elem_of_singleton.
        tauto. }
      destruct cs0 as [|[c x] cs00 _] using rev_ind.
      * simpl in Hpre. unfold pop_back in E. rewrite Hpre, Ht in E.
        rewrite decide_True in E by done. injection E as <- _.
        rewrite (release_single _ t y) by done.
        intros z [Hzt Hz]%lookup_delete_is_Some. apply Hdrop; auto.
      * assert (Hct : c ≠ t).
        { intros ->. apply (Hd t); [|left]. rewrite fst_snoc.
          apply elem_of_app. right. left. }
        rewrite (pop_back_walk_eq h l cs00 c x t) in E;
          [|done| |done|rewrite length_app in Hlen; simpl in Hlen; lia].
        -- injection E as <- _.
           rewrite (release_single _ t y)
             by (by rewrite lookup_insert_ne).
           intros z [Hzt Hz]%lookup_delete_is_Some.
           apply lookup_insert_is_Some in Hz as [<-|[_ Hz]].
           ++ rewrite fst_snoc. apply elem_of_app. right. left.
           ++ apply Hdrop; auto.
        -- intros Hin'. apply (Hd t Hin'). left.
  - destruct (clear_rep _ _ _ Hrep) as (h' & E & R & _).
    exists h', empty_list, []. rewrite E.
    split; [done|]. split; [done|]. apply (owns_all_intro _ _ _ R).
    intros z Hz. exfalso. unfold clear in E. injection E as <-.
    rewrite (release_lookup _ _ cs) in Hz by done.
    destruct (decide (z ∈ cs.*1)); [by destruct Hz|]. by apply n, Hin.
Qed.

End Compositions.

(** ** Conversions and iterators *)

Section Conversions.

Context {T : Type}.
Variable alloc : gmap loc (Node T) -> loc.
Hypothesis alloc_fresh : forall h : gmap loc (Node T), h !! alloc h = None.
Variable T_default : T.

Implicit Types (h : gmap loc (Node T)) (p q : ptr).
Implicit Types (cs ds : list (loc * T)) (l d : SinglyLinkedList).
Implicit Types (xs arr : list T).

(** Storing [xs] from index [i] on overwrites that stretch of the
    array and nothing else. *)
Lemma store_from_eq xs : forall i arr,
  (i + length xs <= length arr)%nat ->
  store_from i xs arr = take i arr ++ xs ++ drop (i + length xs) arr.
Proof.
  induction xs as [|x xs IH]; intros i arr Hlen; cbn [store_from length].
  - rewrite Nat.add_0_r. cbn [app]. by rewrite take_drop.
  - cbn [length] in Hlen. rewrite IH by (rewrite length_insert; lia).
    rewrite (take_S_r _ i x) by (apply list_lookup_insert_eq; lia).
    rewrite take_insert_ge by lia. rewrite drop_insert_lt by lia.
    rewrite <- app_assoc. cbn [app].
    by replace (S i + length xs)%nat with (i + S (length xs))%nat by lia.
Qed.

Lemma store_from_all xs arr :
  length arr = length xs -> store_from 0 xs arr = xs.
Proof.
  intros Hlen. rewrite store_from_eq by (simpl; lia). cbn [Nat.add].
  rewrite take_0, drop_ge by lia. cbn [app]. apply app_nil_r.
Qed.

(** The loop of [to_array_cut] and [to_array_auto] on a chain that
    fits: it runs to the end. *)
Lemma to_array_cut_loop_fits h cs N : forall p fuel i arr,
  lseg h p cs None -> (i + length cs <= N)%nat -> (length cs < fuel)%nat ->
  to_array_cut_loop fuel h p N i arr
  = Ok (Finished (i + length cs)%nat (store_from i cs.*2 arr)).
Proof.
  induction cs as [|[c x] cs IH]; intros p fuel i arr Hl Hfit Hf;
    (destruct fuel as [|fuel]; [simpl in Hf; lia|]).
  - simpl in Hl. subst p. cbn. by rewrite Nat.add_0_r.
  - destruct Hl as [-> (r & Hc & Hr)]. cbn [to_array_cut_loop]. rewrite Hc.
    cbn [length] in Hfit. rewrite decide_False by lia. cbn [next data].
    rewrite (IH r fuel (S i)); [|done|lia|simpl in Hf; lia].
    rewrite fmap_cons. cbn [store_from snd length]. do 2 f_equal. lia.
Qed.

(** On a chain that does not fit, it returns once the array is full. *)
Lemma to_array_cut_loop_overflows h cs N : forall p fuel i arr,
  lseg h p cs None -> (i <= N)%nat -> (N < i + length cs)%nat ->
  (length cs < fuel)%nat ->
  to_array_cut_loop fuel h p N i arr
  = Ok (Returned (store_from i (take (N - i) cs.*2) arr)).
Proof.
  induction cs as [|[c x] cs IH]; intros p fuel i arr Hl Hi Hover Hf;
    (destruct fuel as [|fuel]; [simpl in Hf; lia|]).
  - simpl in Hover. lia.
  - destruct Hl as [-> (r & Hc & Hr)]. cbn [to_array_cut_loop]. rewrite Hc.
    cbn [length] in Hover. cbn [next data].
    destruct (decide (N <= i)%nat) as [Hfull|Hroom].
    + replace (N - i)%nat with O by lia. done.
    + rewrite (IH r fuel (S i)); [|done|lia|lia|simpl in Hf; lia].
      rewrite fmap_cons. cbn [snd].
      replace (N - i)%nat with (S (N - S i)) by lia. done.
Qed.

(** The loop of [to_array_pad]: to the end on a chain that fits, a
    throw on one that does not. *)
Lemma to_array_pad_loop_fits h cs N : forall p fuel i arr,
  lseg h p cs None -> (i + length cs <= N)%nat -> (length cs < fuel)%nat ->
  to_array_pad_loop fuel h p N i arr
  = Ok ((i + length cs)%nat, store_from i cs.*2 arr).
Proof.
  induction cs as [|[c x] cs IH]; intros p fuel i arr Hl Hfit Hf;
    (destruct fuel as [|fuel]; [simpl in Hf; lia|]).
  - simpl in Hl. subst p. cbn. by rewrite Nat.add_0_r.
  - destruct Hl as [-> (r & Hc & Hr)]. cbn [to_array_pad_loop]. rewrite Hc.
    cbn [length] in Hfit. rewrite decide_False by lia. cbn [next data].
    rewrite (IH r fuel (S i)); [|done|lia|simpl in Hf; lia].
    rewrite fmap_cons. cbn [store_from snd length]. do 2 f_equal. lia.
Qed.

Lemma to_array_pad_loop_overflows h cs N : forall p fuel i arr,
  lseg h p cs None -> (i <= N)%nat -> (N < i + length cs)%nat ->
  (length cs < fuel)%nat ->
  to_array_pad_loop fuel h p N i arr = Throw "List size exceeds array size.".
Proof.
  induction cs as [|[c x] cs IH]; intros p fuel i arr Hl Hi Hover Hf;
    (destruct fuel as [|fuel]; [simpl in Hf; lia|]).
  - simpl in Hover. lia.
  - destruct Hl as [-> (r & Hc & Hr)]. cbn [to_array_pad_loop]. rewrite Hc.
    cbn [length] in Hover. cbn [next data].
    destruct (decide (N <= i)%nat) as [Hfull|Hroom]; [done|].
    apply IH; [done|lia|lia|simpl in Hf; lia].
Qed.

Lemma rep_fuel h l cs : rep h l cs -> (length cs < steps h)%nat.
Proof.
  intros (Hl & Hnd & _). pose proof (lseg_length _ _ _ _ Hl Hnd).
  unfold steps. lia.
Qed.

(** X13: [to_array_pad<N>()] on a well-formed list, into an array of
    [N] slots: it throws "Array size must be a positive integer." when
    [N] is 0 and "List size exceeds array size." when the list has more
    than [N] elements; it returns the elements when there are exactly
    [N], and [N] default values when there are fewer. *)
Theorem to_array_pad_cases h l cs N arr :
  rep h l cs -> length arr = N ->
  (N = O -> exists w, to_array_pad T_default N arr (h, l) = Throw w /\
                      InvalidSize w = true) /\
  ((1 <= N)%nat -> (N < length cs)%nat ->
     exists w, to_array_pad T_default N arr (h, l) = Throw w /\
               LengthMismatch w = true) /\
  ((1 <= N)%nat -> length cs = N ->
     to_array_pad T_default N arr (h, l) = Ok cs.*2) /\
  ((1 <= N)%nat -> (length cs < N)%nat ->
     to_array_pad T_default N arr (h, l) = Ok (replicate N T_default)).
Proof.
  intros Hrep Harr. pose proof (rep_fuel _ _ _ Hrep) as Hf.
  pose proof Hrep as (Hl & _). unfold to_array_pad. cbn [fst snd].
  split; [|split; [|split]].
  - intros ->. eexists. by rewrite decide_True by lia.
  - intros HN Hover. rewrite decide_False by lia.
    rewrite (to_array_pad_loop_overflows h cs N); [|done|lia|lia|done].
    by eexists.
  - intros HN Heq. rewrite decide_False by lia.
    rewrite (to_array_pad_loop_fits h cs N); [|done|lia|done].
    cbn [Nat.add]. rewrite decide_False by lia.
    rewrite store_from_all; [done|]. rewrite length_fmap. lia.
  - intros HN Hlt. rewrite decide_False by lia.
    rewrite (to_array_pad_loop_fits h cs N); [|done|lia|done].
    cbn [Nat.add]. by rewrite decide_True by lia.
Qed.

(** X14: [to_array_cut<N>()] on a well-formed list, into an array of
    [N] slots: it throws "Array size must be a positive integer." when
    [N] is 0 and "Array size exceeds list size." when the list has
    fewer than [N] elements; otherwise it returns the first [N]
    elements. *)
Theorem to_array_cut_cases h l cs N arr :
  rep h l cs -> length arr = N ->
  (N = O -> exists w, to_array_cut N arr (h, l) = Throw w /\
                      InvalidSize w = true) /\
  ((1 <= N)%nat -> (length cs < N)%nat ->
     exists w, to_array_cut N arr (h, l) = Throw w /\
               LengthMismatch w = true) /\
  ((1 <= N)%nat -> (N <= length cs)%nat ->
     to_array_cut N arr (h, l) = Ok (take N cs.*2)).
Proof.
  intros Hrep Harr. pose proof (rep_fuel _ _ _ Hrep) as Hf.
  pose proof Hrep as (Hl & _). unfold to_array_cut. cbn [fst snd].
  split; [|split].
  - intros ->. eexists. by rewrite decide_True by lia.
  - intros HN Hlt. rewrite decide_False by lia.
    rewrite (to_array_cut_loop_fits h cs N); [|done|lia|done].
    cbn [Nat.add]. rewrite decide_True by lia. by eexists.
  - intros HN Hle. rewrite decide_False by lia.
    destruct (decide (length cs = N)) as [Heq|Hne].
    + rewrite (to_array_cut_loop_fits h cs N); [|done|lia|done].
      cbn [Nat.add]. rewrite decide_False by lia.
      rewrite store_from_all by (rewrite length_fmap; lia).
      by rewrite take_ge by (rewrite length_fmap; lia).
    + rewrite (to_array_cut_loop_overflows h cs N); [|done|lia|lia|done].
      rewrite Nat.sub_0_r. f_equal. apply store_from_all.
      rewrite length_take, length_fmap. lia.
Qed.

(** X15: [to_array_auto<N>()] on a well-formed list, into an array of
    [N] slots: it throws "Array size must be a positive integer." when
    [N] is 0; it returns the first [N] elements when the list has at
    least [N], and [N] default values when it has fewer. *)
Theorem to_array_auto_cases h l cs N arr :
  rep h l cs -> length arr = N ->
  (N = O -> exists w, to_array_auto T_default N arr (h, l) = Throw w /\
                      InvalidSize w = true) /\
  ((1 <= N)%nat -> (N <= length cs)%nat ->
     to_array_auto T_default N arr (h, l) = Ok (take N cs.*2)) /\
  ((1 <= N)%nat -> (length cs < N)%nat ->
     to_array_auto T_default N arr (h, l) = Ok (replicate N T_default)).
Proof.
  intros Hrep Harr. pose proof (rep_fuel _ _ _ Hrep) as Hf.
  pose proof Hrep as (Hl & _). unfold to_array_auto. cbn [fst snd].
  split; [|split].
  - intros ->. eexists. by rewrite decide_True by lia.
  - intros HN Hle. rewrite decide_False by lia.
    destruct (decide (length cs = N)) as [Heq|Hne].
    + rewrite (to_array_cut_loop_fits h cs N); [|done|lia|done].
      cbn [Nat.add]. rewrite decide_False by lia.
      rewrite store_from_all by (rewrite length_fmap; lia).
      by rewrite take_ge by (rewrite length_fmap; lia).
    + rewrite (to_array_cut_loop_overflows h cs N); [|done|lia|lia|done].
      rewrite Nat.sub_0_r. f_equal. apply store_from_all.
      rewrite length_take, length_fmap. lia.
  - intros HN Hlt. rewrite decide_False by lia.
    rewrite (to_array_cut_loop_fits h cs N); [|done|lia|done].
    cbn [Nat.add]. by rewrite decide_True by lia.
Qed.

(** Assigning a sequence of values to a well-formed list. *)
Lemma assign_rep (vals : list T) h d ds :
  rep h d ds ->
  exists h' d' cs',
    push_back_all alloc vals (release h (head d), mkList None None 0)
    = (Ok tt, (h', d')) /\
    rep h' d' cs' /\ cs'.*2 = vals /\
    to_vector (h', d') = Ok vals /\
    list_size d' = wrap (Z.of_nat (length vals)).
Proof.
  intros Hd. destruct (clear_rep _ _ _ Hd) as (h0 & E0 & R0 & _).
  injection E0 as <-.
  destruct (push_back_all_rep alloc alloc_fresh vals _ _ _ R0)
    as (h' & d' & cs' & E & R & Hv & _).
  cbn [fmap list_fmap app] in Hv. exists h', d', cs'.
  split; [done|]. split; [done|]. split; [done|].
  split; [by rewrite (to_vector_rep _ _ _ R), Hv|].
  destruct R as (_ & _ & _ & ->).
  by rewrite <- (length_fmap snd cs'), Hv.
Qed.

(** [to_array_auto<N>()] on a list of exactly [N >= 1] elements. *)
Lemma to_array_auto_exact h l cs arr :
  rep h l cs -> cs ≠ [] -> length arr = length cs ->
  to_array_auto T_default (length cs) arr (h, l) = Ok cs.*2.
Proof.
  intros Hrep Hne Harr. pose proof (rep_fuel _ _ _ Hrep) as Hf.
  pose proof Hrep as (Hl & _). unfold to_array_auto. cbn [fst snd].
  rewrite decide_False by (destruct cs; [done|simpl; lia]).
  rewrite (to_array_cut_loop_fits h cs (length cs)); [|done|lia|done].
  cbn [Nat.add]. rewrite decide_False by lia.
  by rewrite store_from_all by (rewrite length_fmap; lia).
Qed.

(** X16: for a well-formed list of [N >= 1] elements, [to_array_auto<N>()]
    returns its elements in order, and assigning that array to any
    well-formed list gives a list with the same size and the same
    elements in the same order. *)
Theorem array_round_trip h l cs d ds arr :
  rep h l cs -> rep h d ds -> cs ≠ [] -> length arr = length cs ->
  exists h' d',
    to_array_auto T_default (length cs) arr (h, l) = Ok cs.*2 /\
    assign_array alloc cs.*2 (h, d) = (Ok tt, (h', d')) /\
    to_vector (h', d') = Ok cs.*2 /\
    size_ (h', d') = size_ (h, l).
Proof.
  intros Hl Hd Hne Harr.
  destruct (assign_rep cs.*2 _ _ _ Hd) as (h' & d' & cs' & E & R & _ & Hv & Hs).
  exists h', d'. split.
  - by apply to_array_auto_exact.
  - split; [exact E|]. split; [done|].
    destruct Hl as (_ & _ & _ & Hsl). unfold size_. cbn [snd].
    by rewrite Hs, Hsl, length_fmap.
Qed.

(** The loop of [to_list] sees the values of the chain, in order. *)
Lemma to_list_loop_lseg fuel h p cs acc :
  lseg h p cs None -> (length cs < fuel)%nat ->
  to_list_loop fuel h p acc = Ok (acc ++ cs.*2).
Proof.
  revert fuel p acc. induction cs as [|[c x] cs IH]; intros fuel p acc.
  - cbn [lseg]. intros -> Hf. destruct fuel; [simpl in Hf; lia|].
    cbn. by rewrite app_nil_r.
  - intros [-> (r & Hc & Hr)] Hf. destruct fuel; [simpl in Hf; lia|].
    cbn [to_list_loop]. rewrite Hc. cbn [next data].
    rewrite (IH fuel r); [|done|simpl in Hf; lia].
    rewrite fmap_cons. cbn [snd]. by rewrite <- app_assoc.
Qed.

(** X17: for every well-formed list, [to_list()] returns its elements
    in order, and assigning that [std::list] to any well-formed list
    gives a list with the same size and the same elements in the same
    order; the same holds for an initializer list of those values. *)
Theorem list_round_trip h l cs d ds :
  rep h l cs -> rep h d ds ->
  exists h' d',
    to_list (h, l) = Ok cs.*2 /\
    assign_list alloc cs.*2 (h, d) = (Ok tt, (h', d')) /\
    assign_initializer_list alloc cs.*2 (h, d) = (Ok tt, (h', d')) /\
    to_list (h', d') = Ok cs.*2 /\
    size_ (h', d') = size_ (h, l).
Proof.
  intros Hl Hd.
  destruct (assign_rep cs.*2 _ _ _ Hd) as (h' & d' & cs' & E & R & Hv' & _ & Hs).
  exists h', d'. split; [|split; [exact E|split; [exact E|split]]].
  - unfold to_list. cbn [fst snd]. pose proof Hl as (Hl' & _).
    rewrite (to_list_loop_lseg _ _ _ cs); [done|done|].
    exact (rep_fuel _ _ _ Hl).
  - unfold to_list. cbn [fst snd]. pose proof R as (Hl' & _).
    rewrite (to_list_loop_lseg _ _ _ cs'); [by rewrite Hv'|done|].
    exact (rep_fuel _ _ _ R).
  - destruct Hl as (_ & _ & _ & Hsl). unfold size_. cbn [snd].
    by rewrite Hs, Hsl, length_fmap.
Qed.

(** Advancing an iterator along a chain. *)
Lemma iterator_advance_lseg h cs : forall p i x,
  lseg h p cs None -> cs.*2 !! i = Some x ->
  exists it, iterator_advance h p i = Ok it /\ iterator_deref h it = Ok x.
Proof.
  induction cs as [|[c y] cs IH]; intros p i x Hl Hi; [done|].
  destruct Hl as [-> (r & Hc & Hr)]. destruct i as [|i].
  - injection Hi as <-. exists (Some c). split; [done|].
    cbn. by rewrite Hc.
  - cbn [iterator_advance iterator_incr]. rewrite Hc. cbn [next].
    by apply IH.
Qed.

Lemma iterator_advance_end h cs : forall p,
  lseg h p cs None -> iterator_advance h p (length cs) = Ok None.
Proof.
  induction cs as [|[c y] cs IH]; intros p Hl.
  - simpl in Hl. by subst p.
  - destruct Hl as [-> (r & Hc & Hr)].
    cbn [length iterator_advance iterator_incr]. rewrite Hc. cbn [next].
    by apply IH.
Qed.

(** X18: on a well-formed list, the iterator [begin()] advanced [i]
    times with [operator++] dereferences to the element at index [i];
    advanced [size] times it is [end()]; and incrementing or
    dereferencing [end()] dereferences a null pointer. *)
Theorem iteration_visits_elements_in_order h l cs :
  rep h l cs ->
  (forall i x, cs.*2 !! i = Some x ->
     exists it, iterator_advance h (begin_ (h, l)) i = Ok it /\
                it ≠ end_ /\ iterator_deref h it = Ok x) /\
  iterator_advance h (begin_ (h, l)) (length cs) = Ok end_ /\
  iterator_incr h end_ = Fault /\ iterator_deref h end_ = Fault.
Proof.
  intros (Hl & _). unfold begin_, end_. cbn [snd]. split; [|split; [|done]].
  - intros i x Hi.
    destruct (iterator_advance_lseg _ _ _ _ _ Hl Hi) as (it & Ha & Hd).
    exists it. split; [done|]. split; [|done]. by intros ->.
  - by apply iterator_advance_end.
Qed.

End Conversions.

(** ** Witnesses on concrete states *)

Ltac solve_concrete_rep :=
  split; [|split; [|split]];
  [ repeat (split; [reflexivity|]; eexists; split; [reflexivity|]); reflexivity
  | apply (bool_decide_unpack _); vm_compute; exact I
  | reflexivity
  | reflexivity ].

Lemma rep_list_a : rep heap_ex list_a nodes_a.
Proof. solve_concrete_rep. Qed.

Lemma rep_list_b : rep heap_ex list_b nodes_b.
Proof. solve_concrete_rep. Qed.

Lemma nodes_a_b_disjoint k : k ∈ nodes_a.*1 -> k ∉ nodes_b.*1.
Proof.
  intros Ha Hb. apply list_elem_of_In in Ha, Hb. simpl in Ha, Hb.
  intuition congruence.
Qed.

Lemma ends_run_size_front_back_witness :
  exists h l,
    run first_free [Append 1; Append 2; Prepend 0; RemoveFirst; RemoveLast]
        (∅, empty_list) = (Ok tt, (h, l)) /\
    to_vector (h, l) = Ok [1] /\ size_ (h, l) = 1 /\
    fst (getHead (h, l)) = Ok 1 /\ fst (getTail (h, l)) = Ok 1.
Proof.
  destruct (ends_run_size_front_back (T := Z) first_free first_free_fresh)
    as [Hrun _].
  destruct (Hrun [Append 1; Append 2; Prepend 0; RemoveFirst; RemoveLast]
              eq_refl eq_refl)
    as (h & l & xs & Hr & Hv & Hap & _ & Hs & Hh & Ht).
  injection Hap as <-. exists h, l.
  split; [exact Hr|]. split; [exact Hv|]. split; [|split; [exact Hh|exact Ht]].
  apply Hs. reflexivity.
Defined.

Lemma insert_before_null_keeps_tail_witness :
  exists h' l',
    insert_before first_free None 4 (heap_ex, list_a) = (Ok tt, (h', l')) /\
    to_vector (h', l') = Ok [1; 2; 3; 4] /\
    list_size l' = 4 /\
    tail l' = Some 3%positive /\
    fst (getTail (h', l')) = Ok 3.
Proof.
  destruct (insert_before_null_keeps_tail first_free first_free_fresh
              heap_ex list_a nodes_a 4 rep_list_a)
    as (h' & l' & t & y & Hcall & Hlast & _ & _ & _ & _ & Hv & Hs & Ht & _
        & Hg & _).
  { discriminate. }
  injection Hlast as <- <-. exists h', l'.
  split; [exact Hcall|]. split; [exact Hv|]. split; [exact Hs|].
  split; [exact Ht|exact Hg].
Defined.

Lemma vector_round_trip_witness :
  exists h' d',
    to_vector (heap_ex, list_a) = Ok [1; 2; 3] /\
    assign_vector first_free [1; 2; 3] (heap_ex, list_b) = (Ok tt, (h', d')) /\
    to_vector (h', d') = Ok [1; 2; 3] /\
    size_ (h', d') = 3.
Proof.
  destruct (vector_round_trip first_free first_free_fresh
              heap_ex list_a nodes_a list_b nodes_b rep_list_a rep_list_b)
    as (vec & h' & d' & cs' & Hv & -> & Ha & _ & Hv' & Hs).
  exists h', d'. split; [exact Hv|]. split; [exact Ha|].
  split; [exact Hv'|exact Hs].
Defined.

Lemma move_empties_source_witness :
  (exists w1,
     move_construct "c"%string "a"%string machine_ex = (Ok tt, w1) /\
     objs w1 !! "a"%string = Some empty_list /\
     observe "c"%string to_vector w1 = Some (Ok [1; 2; 3])) /\
  (exists w2,
     move_assign "b"%string "a"%string machine_ex = (Ok tt, w2) /\
     objs w2 !! "a"%string = Some empty_list /\
     observe "b"%string to_vector w2 = Some (Ok [1; 2; 3]) /\
     observe "a"%string size_ w2 = Some 0).
Proof.
  split.
  - destruct (move_empties_source machine_ex "a"%string "c"%string list_a nodes_a
                eq_refl rep_list_a ltac:(discriminate))
      as [(w1 & lb & Hm & Ha & _ & _ & _ & Hv & _) _].
    exists w1. split; [exact Hm|]. split; [exact Ha|exact Hv].
  - destruct (move_empties_source machine_ex "a"%string "b"%string list_a nodes_a
                eq_refl rep_list_a ltac:(discriminate))
      as [_ Hassign].
    destruct (Hassign list_b nodes_b eq_refl rep_list_b nodes_a_b_disjoint)
      as (w2 & lb' & Hm & Ha & _ & _ & _ & Hv & Hs).
    exists w2. split; [exact Hm|]. split; [exact Ha|].
    split; [exact Hv|exact Hs].
Defined.

Lemma copy_is_independent_witness :
  exists w1,
    copy_construct first_free "c"%string "a"%string machine_ex = (Ok tt, w1) /\
    observe "c"%string to_vector w1 = Some (Ok [1; 2; 3]) /\
    observe "a"%string to_vector
      (run_caught first_free "c"%string
         [Append 5; RemoveFirst; Clear; RemoveLast; Prepend 7] w1)
      = Some (Ok [1; 2; 3]) /\
    observe "a"%string size_
      (run_caught first_free "c"%string
         [Append 5; RemoveFirst; Clear; RemoveLast; Prepend 7] w1)
      = Some 3.
Proof.
  destruct (copy_is_independent first_free first_free_fresh
              machine_ex "a"%string "c"%string list_a nodes_a
              eq_refl rep_list_a ltac:(discriminate))
    as (w1 & lb & cb & Hc & _ & _ & _ & _ & _ & Hv & _ & _ & Hrun).
  exists w1. split; [exact Hc|]. split; [exact Hv|].
  exact (Hrun [Append 5; RemoveFirst; Clear; RemoveLast; Prepend 7]).
Defined.

Lemma equality_spec_witness :
  equality heap_ex list_a list_b = Ok false /\
  equality heap_ex list_a list_a = Ok true.
Proof.
  destruct (equality_spec heap_ex list_a list_b nodes_a nodes_b
              rep_list_a rep_list_b)
    as (_ & _ & Hrefl & _ & Hrev & _).
  split; [|exact Hrefl].
  apply (Hrev 1 2 3); [discriminate|reflexivity|reflexivity].
Defined.

(** ** Where the code departs from its documentation *)

(** C1: on the list built by [push_back(1)], on which the structural
    invariants hold, [insert_before(nullptr, 2)] returns normally, the
    list then reads [1, 2] with size 2, and the invariants are broken:
    [tail] still is the first node (reached from [head] in 0 steps, not
    in [size - 1 = 1]), and the [next] of [tail] is not null. *)
Theorem insert_before_null_breaks_invariants :
  exists c1 c2,
    push_back first_free 1 (∅, empty_list) = (Ok tt, c1) /\
    structural_invariants c1 = true /\
    insert_before first_free None 2 c1 = (Ok tt, c2) /\
    structural_invariants c2 = false /\
    to_vector c2 = Ok [1; 2] /\ size_ c2 = 2 /\
    nth_next (fst c2) (head (snd c2)) 0 = tail (snd c2) /\
    nth_next (fst c2) (head (snd c2)) 1 ≠ tail (snd c2) /\
    exists t n, tail (snd c2) = Some t /\ fst c2 !! t = Some n /\
                next n ≠ None.
Proof.
  eexists _, _. split; [reflexivity|]. split; [by vm_compute|].
  split; [reflexivity|]. split; [by vm_compute|].
  split; [by vm_compute|]. split; [by vm_compute|].
  split; [by vm_compute|]. split; [by vm_compute|].
  eexists _, _. split; [reflexivity|]. split; [by vm_compute|]. done.
Qed.

(** C2: [to_array_pad<5>()] on the list [1, 2, 3] returns
    [0, 0, 0, 0, 0], whatever the array held before the loop:
    [arr.fill(T())] runs after the elements are stored and overwrites
    them.  The specification says [1, 2, 3, 0, 0]. *)
Theorem to_array_pad_overwrites_elements :
  forall arr : list Z,
  exists c,
    from_initializer_list first_free [1; 2; 3] ∅ = (Ok tt, c) /\
    to_vector c = Ok [1; 2; 3] /\
    to_array_pad 0 5 arr c = Ok [0; 0; 0; 0; 0] /\
    to_array_pad 0 5 arr c ≠ Ok [1; 2; 3; 0; 0].
Proof.
  intros arr. exists (snd (from_initializer_list first_free [1; 2; 3] ∅)).
  split; [by vm_compute|]. split; [by vm_compute|].
  assert (H : to_array_pad 0 5 arr
                (snd (from_initializer_list first_free [1; 2; 3] ∅))
              = Ok [0; 0; 0; 0; 0]) by (by vm_compute).
  split; [exact H|]. rewrite H. discriminate.
Qed.

(** C3: on the list [1, 2], [erase_before] called with the second node
    (the node at index 1, whose predecessor is the head) returns
    normally and changes nothing: the list still reads [1, 2] and its
    size still is 2.  The specification says the first element is
    removed and the size is 1.  With the third node of [1, 2, 3] the call does
    remove the second element, and with the head node it throws
    "Cannot erase before the first element." and changes nothing. *)
Theorem erase_before_second_node_is_noop :
  (exists c t,
     from_initializer_list first_free [1; 2] ∅ = (Ok tt, c) /\
     nth_next (fst c) (head (snd c)) 1 = Some t /\
     erase_before (Some t) c = (Ok tt, c) /\
     to_vector c = Ok [1; 2] /\ size_ c = 2) /\
  (exists c t c',
     from_initializer_list first_free [1; 2; 3] ∅ = (Ok tt, c) /\
     nth_next (fst c) (head (snd c)) 2 = Some t /\
     erase_before (Some t) c = (Ok tt, c') /\
     to_vector c' = Ok [1; 3] /\ size_ c' = 2) /\
  (exists c w,
     from_initializer_list first_free [1; 2] ∅ = (Ok tt, c) /\
     erase_before (head (snd c)) c = (Throw w, c) /\
     InvalidOperation w = true).
Proof.
  split; [|split].
  - eexists _, _. split; [reflexivity|]. split; [by vm_compute|].
    split; [by vm_compute|]. split; by vm_compute.
  - eexists _, _, _. split; [reflexivity|]. split; [by vm_compute|].
    split; [reflexivity|]. split; by vm_compute.
  - eexists _, _. split; [reflexivity|]. split; [by vm_compute|].
    by vm_compute.
Qed.

(** ** More witnesses *)

Lemma rep_list_a_alone : rep heap_a list_a nodes_a.
Proof. solve_concrete_rep. Qed.

Lemma rep_list_one : rep heap_one list_one [(7%positive, 42)].
Proof. solve_concrete_rep. Qed.

Lemma owns_all_heap_a : owns_all heap_a nodes_a.
Proof.
  intros k. split.
  - intros [n Hn]. apply list_elem_of_In. simpl.
    destruct (decide (k = 1%positive)) as [->|H1]; [auto|].
    destruct (decide (k = 2%positive)) as [->|H2]; [auto|].
    destruct (decide (k = 3%positive)) as [->|H3]; [auto|].
    unfold heap_a in Hn. by rewrite !lookup_insert_ne, lookup_empty in Hn.
  - intros Hin. apply list_elem_of_In in Hin. simpl in Hin.
    destruct Hin as [<-|[<-|[<-|[]]]]; by eexists.
Qed.

Ltac solve_not_in :=
  let H := fresh in
  intros H; apply list_elem_of_In in H; simpl in H; intuition congruence.


Lemma insert_before_unknown_position_throws_witness :
  insert_before first_free (Some 5%positive) 9 (heap_ex, list_a)
  = (Throw "Position not found.", (heap_ex, list_a)).
Proof.
  apply (insert_before_unknown_position_throws first_free
           heap_ex list_a nodes_a 5%positive 9 rep_list_a).
  solve_not_in.
Defined.

Lemma insert_then_erase_restores_witness :
  exists c1,
    insert_before first_free (Some 2%positive) 9 (heap_ex, list_a)
    = (Ok tt, c1) /\
    erase_before (Some 2%positive) c1 = (Ok tt, (heap_ex, list_a)).
Proof.
  exact (insert_then_erase_restores first_free first_free_fresh
           heap_ex list_a [] 1%positive 1 2%positive 2 [(3%positive, 3)] 9
           rep_list_a).
Defined.

Lemma erase_before_unknown_position_throws_witness :
  erase_before None (heap_ex, list_a)
  = (Throw "Position not found.", (heap_ex, list_a)).
Proof.
  apply (erase_before_unknown_position_throws heap_ex list_a nodes_a None
           rep_list_a).
  - simpl. lia.
  - intros k _. discriminate.
Defined.

Lemma erase_before_single_element_witness :
  erase_before None (heap_one, list_one) = (Ok tt, (heap_one, list_one)) /\
  fst (erase_before (Some 1%positive) (heap_one, list_one)) = Fault.
Proof.
  destruct (erase_before_single_element heap_one list_one 7%positive 42
              rep_list_one) as [Hnull Hother].
  split; [exact Hnull|]. apply Hother. discriminate.
Defined.

Lemma erase_before_removes_predecessor_witness :
  exists h' l',
    erase_before (Some 3%positive) (heap_ex, list_a) = (Ok tt, (h', l')) /\
    to_vector (h', l') = Ok [1; 3] /\ list_size l' = 2.
Proof.
  destruct (erase_before_removes_predecessor heap_ex list_a []
              1%positive 1 2%positive 2 3%positive 3 [] rep_list_a)
    as (h' & l' & E & _ & Hv & Hs).
  exists h', l'. split; [exact E|]. split; [exact Hv|exact Hs].
Defined.

Lemma push_then_pop_restores_witness :
  (exists c1, push_front first_free 9 (heap_ex, list_a) = (Ok tt, c1) /\
              pop_front c1 = (Ok tt, (heap_ex, list_a))) /\
  (exists c1, push_back first_free 9 (heap_ex, list_a) = (Ok tt, c1) /\
              pop_back c1 = (Ok tt, (heap_ex, list_a))).
Proof.
  exact (push_then_pop_restores first_free first_free_fresh
           heap_ex list_a nodes_a 9 rep_list_a).
Defined.

Lemma clear_destroys_nodes_and_is_idempotent_witness :
  exists h',
    clear (heap_ex, list_a) = (Ok tt, (h', empty_list)) /\
    h' !! 2%positive = None /\
    h' !! 5%positive = Some (mkNode 2 (Some 6%positive)) /\
    clear (h', empty_list) = (Ok tt, (h', empty_list)).
Proof.
  destruct (clear_destroys_nodes_and_is_idempotent heap_ex list_a nodes_a
              rep_list_a) as (h' & E & Hk & _ & E2).
  exists h'. split; [exact E|]. split; [|split; [|exact E2]].
  - rewrite Hk. reflexivity.
  - rewrite Hk. reflexivity.
Defined.

Lemma from_initializer_list_builds_witness :
  exists h' l,
    from_initializer_list first_free [1; 2; 3] heap_ex = (Ok tt, (h', l)) /\
    to_vector (h', l) = Ok [1; 2; 3] /\ size_ (h', l) = 3 /\
    h' !! 4%positive = heap_ex !! 4%positive.
Proof.
  destruct (from_initializer_list_builds first_free first_free_fresh
              [1; 2; 3] heap_ex)
    as (h' & l & cs & E & _ & _ & Hv & Hs & Hold).
  exists h', l. split; [exact E|]. split; [exact Hv|]. split; [exact Hs|].
  apply Hold. eexists. reflexivity.
Defined.

Lemma mutations_keep_structural_invariants_witness :
  exists h' l',
    snd (push_back first_free 9 (heap_ex, list_a)) = (h', l') /\
    structural_invariants (h', l') = true.
Proof.
  destruct (mutations_keep_structural_invariants first_free first_free_fresh
              (Append 9) heap_ex list_a nodes_a rep_list_a)
    as (h' & l' & cs' & E & _ & Hinv & _).
  { reflexivity. }
  exists h', l'. split; [exact E|exact Hinv].
Defined.

Lemma insert_null_then_push_back_loses_element_witness :
  exists c1 c2,
    insert_before first_free None 4 (heap_ex, list_a) = (Ok tt, c1) /\
    to_vector c1 = Ok [1; 2; 3; 4] /\
    push_back first_free 5 c1 = (Ok tt, c2) /\
    to_vector c2 = Ok [1; 2; 3; 5] /\ size_ c2 = 5.
Proof.
  destruct (insert_null_then_push_back_loses_element first_free
              first_free_fresh heap_ex list_a nodes_a 4 5 rep_list_a)
    as (c1 & c2 & E1 & Hv1 & E2 & Hv2 & Hs & _).
  { discriminate. }
  exists c1, c2. split; [exact E1|]. split; [exact Hv1|].
  split; [exact E2|]. split; [exact Hv2|exact Hs].
Defined.

Lemma insert_null_then_pop_back_drops_two_witness :
  exists c1 c2,
    insert_before first_free None 4 (heap_ex, list_a) = (Ok tt, c1) /\
    pop_back c1 = (Ok tt, c2) /\
    to_vector c2 = Ok [1; 2] /\ size_ c2 = 3.
Proof.
  destruct (insert_null_then_pop_back_drops_two first_free
              first_free_fresh heap_ex list_a nodes_a 4 rep_list_a)
    as (c1 & c2 & t & y & E1 & _ & E2 & Hv & Hs & _).
  { discriminate. }
  exists c1, c2. split; [exact E1|]. split; [exact E2|].
  split; [exact Hv|exact Hs].
Defined.

Lemma to_array_pad_cases_witness :
  to_array_pad 0 3 [7; 7; 7] (heap_ex, list_a) = Ok [1; 2; 3] /\
  to_array_pad 0 5 [7; 7; 7; 7; 7] (heap_ex, list_a) = Ok [0; 0; 0; 0; 0] /\
  (exists w, to_array_pad 0 2 [7; 7] (heap_ex, list_a) = Throw w /\
             LengthMismatch w = true).
Proof.
  split; [|split].
  - destruct (to_array_pad_cases 0 heap_ex list_a nodes_a 3 [7; 7; 7]
                rep_list_a eq_refl) as (_ & _ & Hexact & _).
    apply Hexact; [lia|reflexivity].
  - destruct (to_array_pad_cases 0 heap_ex list_a nodes_a 5 [7; 7; 7; 7; 7]
                rep_list_a eq_refl) as (_ & _ & _ & Hshort).
    apply Hshort; simpl; lia.
  - destruct (to_array_pad_cases 0 heap_ex list_a nodes_a 2 [7; 7]
                rep_list_a eq_refl) as (_ & Hover & _).
    apply Hover; simpl; lia.
Defined.

Lemma to_array_cut_cases_witness :
  to_array_cut 2 [7; 7] (heap_ex, list_a) = Ok [1; 2] /\
  (exists w, to_array_cut 5 [7; 7; 7; 7; 7] (heap_ex, list_a) = Throw w /\
             LengthMismatch w = true).
Proof.
  split.
  - destruct (to_array_cut_cases heap_ex list_a nodes_a 2 [7; 7]
                rep_list_a eq_refl) as (_ & _ & Hcut).
    apply Hcut; simpl; lia.
  - destruct (to_array_cut_cases heap_ex list_a nodes_a 5 [7; 7; 7; 7; 7]
                rep_list_a eq_refl) as (_ & Hshort & _).
    apply Hshort; simpl; lia.
Defined.

Lemma to_array_auto_cases_witness :
  to_array_auto 0 2 [7; 7] (heap_ex, list_a) = Ok [1; 2] /\
  to_array_auto 0 5 [7; 7; 7; 7; 7] (heap_ex, list_a) = Ok [0; 0; 0; 0; 0].
Proof.
  split.
  - destruct (to_array_auto_cases 0 heap_ex list_a nodes_a 2 [7; 7]
                rep_list_a eq_refl) as (_ & Hcut & _).
    apply Hcut; simpl; lia.
  - destruct (to_array_auto_cases 0 heap_ex list_a nodes_a 5 [7; 7; 7; 7; 7]
                rep_list_a eq_refl) as (_ & _ & Hshort).
    apply Hshort; simpl; lia.
Defined.

Lemma array_round_trip_witness :
  exists h' d',
    to_array_auto 0 3 [7; 7; 7] (heap_ex, list_a) = Ok [1; 2; 3] /\
    assign_array first_free [1; 2; 3] (heap_ex, list_b) = (Ok tt, (h', d')) /\
    to_vector (h', d') = Ok [1; 2; 3] /\ size_ (h', d') = 3.
Proof.
  destruct (array_round_trip first_free first_free_fresh 0
              heap_ex list_a nodes_a list_b nodes_b [7; 7; 7]
              rep_list_a rep_list_b)
    as (h' & d' & Ha & E & Hv & Hs); [discriminate|reflexivity|].
  exists h', d'. split; [exact Ha|]. split; [exact E|].
  split; [exact Hv|exact Hs].
Defined.

Lemma list_round_trip_witness :
  exists h' d',
    to_list (heap_ex, list_a) = Ok [1; 2; 3] /\
    assign_list first_free [1; 2; 3] (heap_ex, list_b) = (Ok tt, (h', d')) /\
    to_list (h', d') = Ok [1; 2; 3] /\ size_ (h', d') = 3.
Proof.
  destruct (list_round_trip first_free first_free_fresh
              heap_ex list_a nodes_a list_b nodes_b rep_list_a rep_list_b)
    as (h' & d' & Hl & E & _ & Hl' & Hs).
  exists h', d'. split; [exact Hl|]. split; [exact E|].
  split; [exact Hl'|exact Hs].
Defined.

Lemma iteration_visits_elements_in_order_witness :
  (exists it, iterator_advance heap_ex (begin_ (heap_ex, list_a)) 1 = Ok it /\
              iterator_deref heap_ex it = Ok 2) /\
  iterator_advance heap_ex (begin_ (heap_ex, list_a)) 3 = Ok end_.
Proof.
  destruct (iteration_visits_elements_in_order heap_ex list_a nodes_a
              rep_list_a) as (Hvisit & Hend & _).
  split; [|exact Hend].
  destruct (Hvisit 1%nat 2 eq_refl) as (it & Ha & _ & Hd).
  exists it. split; [exact Ha|exact Hd].
Defined.

Lemma mutations_leak_nothing_witness :
  exists h' l' cs',
    snd (pop_back (heap_a, list_a)) = (h', l') /\
    rep h' l' cs' /\ owns_all h' cs'.
Proof.
  exact (mutations_leak_nothing first_free first_free_fresh
           RemoveLast heap_a list_a nodes_a rep_list_a_alone owns_all_heap_a).
Defined.

Lemma insert_null_then_pop_front_dangles_witness :
  exists c1 c2,
    insert_before first_free None 5 (heap_one, list_one) = (Ok tt, c1) /\
    pop_front c1 = (Ok tt, c2) /\
    to_vector c2 = Ok [5] /\
    fst (getTail c2) = Fault.
Proof.
  destruct (insert_null_then_pop_front_dangles first_free first_free_fresh
              heap_one list_one 7%positive 42 5 rep_list_one)
    as (c1 & c2 & E1 & E2 & Hv & _ & _ & Hg).
  exists c1, c2. split; [exact E1|]. split; [exact E2|].
  split; [exact Hv|exact Hg].
Defined.
